(** * The realtime log viewer's tail watcher (viewer/watcher.ts)

    A shallow embedding of [LogFileWatcher]: the polling loop that tails the
    session log, the line decoder, the subscriber fan-out, the snapshot
    query and the session index, together with the properties the
    specification states about them; and of the HTTP server in front of it
    (viewer/server.ts), with what the two do together. *)

From Stdlib Require Import Ascii String ZArith Lia Sorting.Sorted DecimalString.
From stdpp Require Import base option list gmap strings.

Local Open Scope list_scope.

(** ** JavaScript strings

    A string read from a log file is kept as the list of its UTF-8 bytes:
    [file.size], [file.slice] and [lastSize] count bytes, and every character
    the watcher looks at ("\n", whitespace, ".txt") is found at the byte
    level (the byte 10 never occurs inside a multi-byte character, and a
    lead byte always starts a character, so that splitting at newlines and
    trimming give the same pieces on the bytes as on the decoded text).
    Decoding itself, with its replacement of bytes that are not UTF-8, is
    part of what [JSON_parse] stands for below; the one thing the two
    decoders of the watcher do differently, the byte order mark, is
    [Blob_text]. *)

Abbreviation str := (list ascii).

Definition lit (s : string) : str := list_ascii_of_string s.

Definition newline : ascii := ascii_of_nat 10.

(** [s.split(sep)] for a one-character separator: always at least one
    piece; ["a\n".split("\n")] is [["a"; ""]]. *)
Fixpoint split (sep : ascii) (s : str) : list str :=
  match s with
  | [] => [[]]
  | c :: s' =>
      if decide (c = sep) then [] :: split sep s'
      else match split sep s' with
           | piece :: pieces => (c :: piece) :: pieces
           | [] => [[c]]
           end
  end.

(** [pieces.join(sep)], which undoes [split]. *)
Fixpoint Array_join (sep : ascii) (pieces : list str) : str :=
  match pieces with
  | [] => []
  | piece :: rest =>
      match rest with
      | [] => piece
      | _ :: _ => piece ++ sep :: Array_join sep rest
      end
  end.

(** ECMAScript WhiteSpace and LineTerminator code points, as [trim] strips
    them, in their UTF-8 encodings: U+0009..U+000D and U+0020 take one byte,
    U+00A0 two, and U+1680, U+2000..U+200A, U+2028, U+2029, U+202F, U+205F,
    U+3000 and U+FEFF three. *)
Definition ws1 (a : nat) : bool :=
  ((9 <=? a) && (a <=? 13)) || (a =? 32).

Definition ws2 (a b : nat) : bool :=
  (a =? 194) && (b =? 160).

Definition ws3 (a b c : nat) : bool :=
  ((a =? 225) && (b =? 154) && (c =? 128))
  || ((a =? 226) && (b =? 128) &&
        (((128 <=? c) && (c <=? 138)) || (c =? 168) || (c =? 169) || (c =? 175)))
  || ((a =? 226) && (b =? 129) && (c =? 159))
  || ((a =? 227) && (b =? 128) && (c =? 128))
  || ((a =? 239) && (b =? 187) && (c =? 191)).

(** One whitespace character off the front, if there is one. *)
Definition strip_ws (s : str) : option str :=
  match s with
  | [] => None
  | a :: s1 =>
      if ws1 (nat_of_ascii a) then Some s1
      else match s1 with
           | [] => None
           | b :: s2 =>
               if ws2 (nat_of_ascii a) (nat_of_ascii b) then Some s2
               else match s2 with
                    | [] => None
                    | c :: s3 =>
                        if ws3 (nat_of_ascii a) (nat_of_ascii b) (nat_of_ascii c)
                        then Some s3 else None
                    end
           end
  end.

(** The same from the back, on the reversed string. *)
Definition strip_ws_rev (r : str) : option str :=
  match r with
  | [] => None
  | c :: r1 =>
      if ws1 (nat_of_ascii c) then Some r1
      else match r1 with
           | [] => None
           | b :: r2 =>
               if ws2 (nat_of_ascii b) (nat_of_ascii c) then Some r2
               else match r2 with
                    | [] => None
                    | a :: r3 =>
                        if ws3 (nat_of_ascii a) (nat_of_ascii b) (nat_of_ascii c)
                        then Some r3 else None
                    end
           end
  end.

Fixpoint strip_all (strip : str -> option str) (fuel : nat) (s : str) : str :=
  match fuel with
  | 0 => s
  | S fuel' =>
      match strip s with
      | Some s' => strip_all strip fuel' s'
      | None => s
      end
  end.

Definition trimStart (s : str) : str := strip_all strip_ws (length s) s.

Definition trimEnd (s : str) : str :=
  rev (strip_all strip_ws_rev (length s) (rev s)).

(** [s.trim()] *)
Definition trim (s : str) : str := trimEnd (trimStart s).

(** Truthiness of a string: only the empty string is falsy. *)
Definition truthy (s : str) : bool :=
  match s with [] => false | _ :: _ => true end.

(** [s.endsWith(suffix)] *)
Fixpoint startsWith (s pre : str) : bool :=
  match pre, s with
  | [], _ => true
  | p :: pre', c :: s' => if decide (c = p) then startsWith s' pre' else false
  | _ :: _, [] => false
  end.

Definition endsWith (s suffix : str) : bool := startsWith (rev s) (rev suffix).

(** [s.replace(pat, repl)] with a string pattern: only the first occurrence
    of [pat] is replaced. *)
Fixpoint replace (pat repl : str) (s : str) : str :=
  if startsWith s pat then repl ++ drop (length pat) s
  else match s with
       | [] => []
       | c :: s' => c :: replace pat repl s'
       end.

(** [blob.slice(start, stop)] on the bytes of a file. *)
Definition slice (start stop : nat) (bytes : str) : str :=
  take (stop - start) (drop start bytes).

(** The UTF-8 byte order mark. *)
Definition BOM : str := [ascii_of_nat 239; ascii_of_nat 187; ascii_of_nat 191].

(** [blob.text()]: the bytes decoded as UTF-8, which drops a byte order
    mark at the start. ([readFileSync(path, "utf-8")] keeps it.) *)
Definition Blob_text (bytes : str) : str :=
  if startsWith bytes BOM then drop 3 bytes else bytes.

(** Code-unit lexicographic comparison, the order plain [<] gives on
    strings. *)
Fixpoint lex_compare (a b : str) : comparison :=
  match a, b with
  | [], [] => Eq
  | [], _ :: _ => Lt
  | _ :: _, [] => Gt
  | x :: a', y :: b' =>
      match Nat.compare (nat_of_ascii x) (nat_of_ascii y) with
      | Eq => lex_compare a' b'
      | c => c
      end
  end.


(** [array.sort(cmp)]: the sort is stable (ECMAScript 2019), so for a
    consistent comparator its result is the one stable sorted arrangement,
    computed here by insertion from the right. *)
Section Sort.
Context {A : Type} (cmp : A -> A -> Z).

Fixpoint insert_sorted (x : A) (l : list A) : list A :=
  match l with
  | [] => [x]
  | y :: l' =>
      if (cmp x y <=? 0)%Z then x :: y :: l' else y :: insert_sorted x l'
  end.

Fixpoint sort (l : list A) : list A :=
  match l with
  | [] => []
  | x :: l' => insert_sorted x (sort l')
  end.
End Sort.

(** ** Errors

    Code that can throw returns a [Result]; [try_catch] is a [try { } catch]
    block. *)

Inductive Error : Type :=
  | ENOENT
  | EISDIR
  | ENOTDIR
  | TypeError
  | CallbackError.

Inductive Result (A : Type) : Type :=
  | Ok (a : A)
  | Throw (e : Error).

Arguments Ok {A} a.
Arguments Throw {A} e.

#[global] Instance Result_bind : MBind Result := fun A B k r =>
  match r with
  | Ok a => k a
  | Throw e => Throw e
  end.

Definition try_catch {A : Type} (body : Result A) (handler : Error -> Result A)
  : Result A :=
  match body with
  | Ok a => Ok a
  | Throw e => handler e
  end.

Fixpoint mapM {A B : Type} (f : A -> Result B) (l : list A) : Result (list B) :=
  match l with
  | [] => Ok []
  | x :: l' => y ← f x; ys ← mapM f l'; Ok (y :: ys)
  end.

(** ** The file system, as node:fs and Bun.file see it *)

Inductive Node : Type :=
  | File (bytes : str)
  | Dir (names : list str).

Abbreviation FileSystem := (gmap str Node).

Definition existsSync (fs : FileSystem) (path : str) : bool :=
  match fs !! path with
  | Some _ => true
  | None => false
  end.

(** [readdirSync(path)]: the names, in the order the directory yields them. *)
Definition readdirSync (fs : FileSystem) (path : str) : Result (list str) :=
  match fs !! path with
  | Some (Dir names) => Ok names
  | Some (File _) => Throw ENOTDIR
  | None => Throw ENOENT
  end.

(** [readFileSync(path, "utf-8")] *)
Definition readFileSync (fs : FileSystem) (path : str) : Result str :=
  match fs !! path with
  | Some (File bytes) => Ok bytes
  | Some (Dir _) => Throw EISDIR
  | None => Throw ENOENT
  end.

(** [join(dir, filename)] for a name that [readdirSync] returned. *)
Definition join (dir filename : str) : str := dir ++ lit "/" ++ filename.

(** The bytes of the regular file at [path], none when there is no such
    file. *)
Definition file_bytes (fs : FileSystem) (path : str) : str :=
  match fs !! path with
  | Some (File bytes) => bytes
  | _ => []
  end.

(** A writer appending to a log file (and creating it on first use). *)
Definition appendFile (path bytes : str) (fs : FileSystem) : FileSystem :=
  match fs !! path with
  | Some (Dir _) => fs
  | _ => <[path := File (file_bytes fs path ++ bytes)]> fs
  end.

(** ** The watcher *)

(** A subscriber callback is a function object, compared by identity; the
    model names it by a number. *)
Definition EntryCallback : Type := nat.

(** [Set.prototype.add] and [Set.prototype.delete]; a JavaScript [Set]
    iterates in insertion order. [Set_delete] also returns what [delete]
    returns: whether the element was there. *)
Definition Set_add (c : EntryCallback) (s : list EntryCallback) : list EntryCallback :=
  if decide (c ∈ s) then s else s ++ [c].

Definition Set_delete (c : EntryCallback) (s : list EntryCallback)
  : bool * list EntryCallback :=
  (bool_decide (c ∈ s), filter (fun c' => c' ≠ c) s).

Record LogFileWatcher : Type := mkWatcher {
  lastSize : nat;
  interval : bool;
  subscribers : list EntryCallback;
  currentSessionId : option str;
}.

Definition new_LogFileWatcher : LogFileWatcher :=
  {| lastSize := 0; interval := false; subscribers := []; currentSessionId := None |}.

Definition set_lastSize (n : nat) (w : LogFileWatcher) : LogFileWatcher :=
  {| lastSize := n; interval := interval w;
     subscribers := subscribers w; currentSessionId := currentSessionId w |}.

Definition set_interval (b : bool) (w : LogFileWatcher) : LogFileWatcher :=
  {| lastSize := lastSize w; interval := b;
     subscribers := subscribers w; currentSessionId := currentSessionId w |}.

Definition set_subscribers (s : list EntryCallback) (w : LogFileWatcher)
  : LogFileWatcher :=
  {| lastSize := lastSize w; interval := interval w;
     subscribers := s; currentSessionId := currentSessionId w |}.

Definition set_currentSessionId (id : option str) (w : LogFileWatcher)
  : LogFileWatcher :=
  {| lastSize := lastSize w; interval := interval w;
     subscribers := subscribers w; currentSessionId := id |}.

(** A read that [checkForChanges] has started and whose promise has not
    resolved yet: the file it refers to and the byte range of the slice. *)
Record PendingRead : Type := mkRead {
  read_path : str;
  read_start : nat;
  read_stop : nat;
}.

(** What [value.timestamp ?? ''] can be: a string, or a JSON value of
    another kind (a number, a boolean, an array, an object). Of the latter
    the model keeps what the sort's comparator can see of it: the text
    [String(value)] gives, none when that conversion throws. *)
Inductive Timestamp : Type :=
  | Stamp (s : str)
  | NotString (text : option str).

Definition is_string (t : Timestamp) : bool :=
  match t with
  | Stamp _ => true
  | NotString _ => false
  end.

(** The string a timestamp is, the empty one for a value that is none. *)
Definition string_of (t : Timestamp) : str :=
  match t with
  | Stamp s => s
  | NotString _ => []
  end.

(** [String(value)] *)
Definition String_of (t : Timestamp) : option str :=
  match t with
  | Stamp s => Some s
  | NotString text => text
  end.

(** The interface types the two timestamps as strings; what the code puts
    there is whatever the log line holds. *)
Record SessionInfo : Type := mkSessionInfo {
  session_id : str;
  file_path : str;
  first_entry : Timestamp;
  last_entry : Timestamp;
  entry_count : nat;
  size_bytes : nat;
}.

(** What the outside world sees of the watcher, in the order it happens: a
    slice read being started, a subscriber being called with an entry
    (whether it returns or throws), and [console.error] reporting a
    subscriber's exception. *)
Inductive Event (LogEntry : Type) : Type :=
  | SliceRead (r : PendingRead)
  | Invoked (c : EntryCallback) (entry : LogEntry)
  | ConsoleError (c : EntryCallback) (entry : LogEntry).

Arguments SliceRead {LogEntry} r.
Arguments Invoked {LogEntry} c entry.
Arguments ConsoleError {LogEntry} c entry.

(** What the watcher takes from outside this file: the decoded entry type of
    types.ts; [JSON.parse] on the text of a line, given by its bytes ([None]
    when it throws); the [timestamp ?? ''] of a decoded value ([None] when
    the value is [null] and the property access throws);
    [String.prototype.localeCompare]; the two members of [PATHS] in
    config.ts; the size the operating system reports for the directory at
    a path; what [Array.prototype.sort] does where the language leaves it
    to the engine (see [sort_sessions]); and the subscribers' callbacks:
    whether a callback throws on an entry, given all that happened before.
    A callback is taken by its outcome, it returns or it throws; it does
    not call back into the watcher. *)
Class Runtime : Type := {
  LogEntry : Type;
  JSON_parse : str -> option LogEntry;
  timestamp_of : LogEntry -> option Timestamp;
  localeCompare : str -> str -> Z;
  LOGS_DIR : str;
  getSessionLogPath : str -> str;
  directory_size : str -> nat;
  sort_mixed : list SessionInfo -> Result (list SessionInfo);
  throws : EntryCallback -> LogEntry -> list (Event LogEntry) -> bool;
}.

Section Watcher.
Context `{Runtime}.

(** [statSync(path).size] *)
Definition statSync_size (fs : FileSystem) (path : str) : Result nat :=
  match fs !! path with
  | Some (File bytes) => Ok (length bytes)
  | Some (Dir _) => Ok (directory_size path)
  | None => Throw ENOENT
  end.

(** [Bun.file(path).size]: the reference is lazy, a path with nothing
    behind it has size 0; a directory has the size the operating system
    reports for it. *)
Definition Bun_file_size (fs : FileSystem) (path : str) : Result nat :=
  match fs !! path with
  | Some (File bytes) => Ok (length bytes)
  | Some (Dir _) => Ok (directory_size path)
  | None => Ok 0
  end.

Definition subscribe (callback : EntryCallback) (w : LogFileWatcher)
  : LogFileWatcher :=
  set_subscribers (Set_add callback (subscribers w)) w.

(** The handle [subscribe] returns, [() => this.subscribers.delete(callback)],
    called on the watcher as it is then. *)
Definition unsubscribe (callback : EntryCallback) (w : LogFileWatcher)
  : bool * LogFileWatcher :=
  let '(was_there, s) := Set_delete callback (subscribers w) in
  (was_there, set_subscribers s w).

Definition getCurrentSessionId (w : LogFileWatcher) : option str :=
  currentSessionId w.

Definition getLogFilePath (w : LogFileWatcher) : option str :=
  match currentSessionId w with
  | Some id => if truthy id then Some (getSessionLogPath id) else None
  | None => None
  end.

(** [if (!logPath)] holds for [null] and for the empty string. *)
Definition getFileSize (fs : FileSystem) (w : LogFileWatcher) : nat :=
  match getLogFilePath w with
  | None => 0
  | Some logPath =>
      if truthy logPath then
        match try_catch (Bun_file_size fs logPath) (fun _ => Ok 0) with
        | Ok size => size
        | Throw _ => 0
        end
      else 0
  end.

Definition start (fs : FileSystem) (w : LogFileWatcher) : LogFileWatcher :=
  if interval w then w
  else set_interval true (set_lastSize (getFileSize fs w) w).

Definition stop (w : LogFileWatcher) : LogFileWatcher :=
  if interval w then set_interval false w else w.

Definition setSession (id : str) (fs : FileSystem) (w : LogFileWatcher)
  : LogFileWatcher :=
  let w1 := set_currentSessionId (Some id) w in
  set_lastSize (getFileSize fs w1) w1.

Definition parseLines (content : str) : list LogEntry :=
  let lines := List.filter (fun line => truthy (trim line)) (split newline content) in
  omap JSON_parse lines.

Definition getAllEntries (fs : FileSystem) (w : LogFileWatcher)
  : Result (list LogEntry) :=
  match getLogFilePath w with
  | None => Ok []
  | Some logPath =>
      if truthy logPath then
        try_catch
          (size ← Bun_file_size fs logPath;
           if size =? 0 then Ok []
           else content ← readFileSync fs logPath; Ok (parseLines content))
          (fun _ => Ok [])
      else Ok []
  end.

(** One callback invocation inside [emit]'s [try]. *)
Definition invoke (c : EntryCallback) (entry : LogEntry)
    (log : list (Event LogEntry)) : list (Event LogEntry) * Result unit :=
  (log ++ [Invoked c entry],
   if throws c entry log then Throw CallbackError else Ok tt).

Fixpoint emit_loop (cbs : list EntryCallback) (entry : LogEntry)
    (log : list (Event LogEntry)) : list (Event LogEntry) :=
  match cbs with
  | [] => log
  | c :: rest =>
      match invoke c entry log with
      | (log1, Ok _) => emit_loop rest entry log1
      | (log1, Throw _) => emit_loop rest entry (log1 ++ [ConsoleError c entry])
      end
  end.

Definition emit (w : LogFileWatcher) (entry : LogEntry)
    (log : list (Event LogEntry)) : list (Event LogEntry) :=
  emit_loop (subscribers w) entry log.

(** The synchronous part of a poll tick: everything but the body of
    [.then], which runs when the read it starts has completed. *)
Definition checkForChanges (fs : FileSystem) (w : LogFileWatcher)
  : LogFileWatcher * option PendingRead :=
  let currentSize := getFileSize fs w in
  if lastSize w <? currentSize then
    match getLogFilePath w with
    | None => (w, None)
    | Some logPath =>
        if truthy logPath then
          (set_lastSize currentSize w,
           Some {| read_path := logPath; read_start := lastSize w;
                   read_stop := currentSize |})
        else (w, None)
    end
  else if currentSize <? lastSize w then (set_lastSize currentSize w, None)
  else (w, None).

(** The body of [.then]: decode the slice and emit every entry. *)
Definition deliver (w : LogFileWatcher) (content : str)
    (log : list (Event LogEntry)) : list (Event LogEntry) :=
  foldl (fun log entry => emit w entry log) log (parseLines content).

(** The record [listSessions] builds for one file name. The [try] block
    assigns [first_entry] before it reads the last line's timestamp, so a
    throw in between leaves the first one set. *)
Definition sessionInfo (fs : FileSystem) (dir filename : str) : Result SessionInfo :=
  let session_id := replace (lit ".txt") [] filename in
  let file_path := join dir filename in
  size ← statSync_size fs file_path;
  content ← readFileSync fs file_path;
  let lines := List.filter truthy (split newline (trim content)) in
  let '(first_entry, last_entry) :=
    match lines with
    | [] => (Stamp [], Stamp [])
    | firstLine :: _ =>
        let lastLine := List.last lines [] in
        if truthy firstLine && truthy lastLine then
          match JSON_parse firstLine with
          | None => (Stamp [], Stamp [])
          | Some firstParsed =>
              match JSON_parse lastLine with
              | None => (Stamp [], Stamp [])
              | Some lastParsed =>
                  match timestamp_of firstParsed with
                  | None => (Stamp [], Stamp [])
                  | Some first =>
                      match timestamp_of lastParsed with
                      | None => (first, Stamp [])
                      | Some last => (first, last)
                      end
                  end
              end
          end
        else (Stamp [], Stamp [])
    end in
  Ok {| session_id := session_id; file_path := file_path;
        first_entry := first_entry; last_entry := last_entry;
        entry_count := length lines; size_bytes := size |}.

Definition is_log_file (f : str) : bool :=
  endsWith f (lit ".txt") && negb (bool_decide (f = lit ".gitkeep")).

(** The comparator of the sort, [b.last_entry.localeCompare(a.last_entry)].
    Only a string has a [localeCompare]: on another value the call throws a
    TypeError, which nothing catches. The argument is converted with
    [String]. *)
Definition compare_last_entry (a b : SessionInfo) : Result Z :=
  match last_entry b with
  | Stamp sb =>
      match String_of (last_entry a) with
      | Some sa => Ok (localeCompare sb sa)
      | None => Throw TypeError
      end
  | NotString _ => Throw TypeError
  end.

Definition returns {A : Type} (r : Result A) : bool :=
  match r with
  | Ok _ => true
  | Throw _ => false
  end.

(** The comparator where it does not throw. *)
Definition by_last_entry_desc (a b : SessionInfo) : Z :=
  match compare_last_entry a b with
  | Ok z => z
  | Throw _ => 0%Z
  end.

(** [infos.sort(compare)]. Which pairs the sort compares is left to the
    engine, and the first call that throws ends it. With fewer than two
    elements nothing is compared. Where no pair can throw, the result is
    [sort]'s; where every pair throws, the first comparison throws; in
    between, the outcome depends on the comparisons the engine chooses to
    make, and is the runtime's. *)
Definition sort_sessions (infos : list SessionInfo) : Result (list SessionInfo) :=
  let every (p : SessionInfo -> SessionInfo -> bool) :=
    forallb (fun a => forallb (p a) infos) infos in
  if length infos <=? 1 then Ok infos
  else if every (fun a b => returns (compare_last_entry a b)) then
    Ok (sort by_last_entry_desc infos)
  else if every (fun a b => negb (returns (compare_last_entry a b))) then
    Throw TypeError
  else sort_mixed infos.

Definition listSessions (fs : FileSystem) : Result (list SessionInfo) :=
  let dir := LOGS_DIR in
  if negb (existsSync fs dir) then Ok []
  else
    names ← readdirSync fs dir;
    let files := List.filter is_log_file names in
    infos ← mapM (sessionInfo fs dir) files;
    sort_sessions infos.


(** Every log file the directory lists is a regular file. *)
Definition log_files_regular (fs : FileSystem) (names : list str) : Prop :=
  Forall (fun f => is_log_file f = true ->
                   exists bytes, fs !! join LOGS_DIR f = Some (File bytes)) names.

(** The last-entry timestamps [listSessions] finds, in directory order,
    where no file makes it throw before the sort. *)
Definition last_entries (fs : FileSystem) (names : list str) : list Timestamp :=
  match mapM (sessionInfo fs LOGS_DIR) (List.filter is_log_file names) with
  | Ok infos => map last_entry infos
  | Throw _ => []
  end.

(** ** The event loop

    The process is single-threaded: a timer callback, a promise
    continuation and a request handler each run to completion, one after
    the other. What is outside the watcher's control is their order and
    what the writer does to the files in between. Nothing orders the reads
    that are out: any of them may be the next to complete. *)
Record World : Type := mkWorld {
  files : FileSystem;
  watcher : LogFileWatcher;
  pending : list PendingRead;
  log : list (Event LogEntry);
}.

Inductive Action : Type :=
  | Append (path bytes : str)        (* the writer appends to a file *)
  | Overwrite (path content : str)   (* a file is truncated or replaced *)
  | Tick                             (* the interval timer fires *)
  | Resolve (k : nat)                (* the k-th of the reads out completes *)
  | CallStart
  | CallStop
  | CallSubscribe (c : EntryCallback)
  | CallUnsubscribe (c : EntryCallback)
  | CallSetSession (id : str).

Definition with_watcher (w : LogFileWatcher) (wd : World) : World :=
  {| files := files wd; watcher := w; pending := pending wd; log := log wd |}.

Definition with_files (fs : FileSystem) (wd : World) : World :=
  {| files := fs; watcher := watcher wd; pending := pending wd; log := log wd |}.

Definition tick (wd : World) : World :=
  if interval (watcher wd) then
    match checkForChanges (files wd) (watcher wd) with
    | (w, Some r) =>
        {| files := files wd; watcher := w;
           pending := pending wd ++ [r]; log := log wd ++ [SliceRead r] |}
    | (w, None) => with_watcher w wd
    end
  else wd.

(** One of the reads that are out completes, the [k]-th in the order they
    were started (none when there are not that many): [slice.text()] gives
    the text of the byte range of the file as it is then, and the body of
    [.then] runs on it. With no regular file left at the path the promise
    rejects, and nothing handles the rejection. *)
Definition resolve (k : nat) (wd : World) : World :=
  match pending wd !! k with
  | None => wd
  | Some r =>
      let rest := delete k (pending wd) in
      match files wd !! read_path r with
      | Some (File bytes) =>
          let content := Blob_text (slice (read_start r) (read_stop r) bytes) in
          {| files := files wd; watcher := watcher wd; pending := rest;
             log := deliver (watcher wd) content (log wd) |}
      | _ =>
          {| files := files wd; watcher := watcher wd; pending := rest;
             log := log wd |}
      end
  end.

Definition step (a : Action) (wd : World) : World :=
  match a with
  | Append path bytes => with_files (appendFile path bytes (files wd)) wd
  | Overwrite path content => with_files (<[path := File content]> (files wd)) wd
  | Tick => tick wd
  | Resolve k => resolve k wd
  | CallStart => with_watcher (start (files wd) (watcher wd)) wd
  | CallStop => with_watcher (stop (watcher wd)) wd
  | CallSubscribe c => with_watcher (subscribe c (watcher wd)) wd
  | CallUnsubscribe c => with_watcher (snd (unsubscribe c (watcher wd))) wd
  | CallSetSession id => with_watcher (setSession id (files wd) (watcher wd)) wd
  end.

Definition run (actions : list Action) (wd : World) : World :=
  foldl (fun wd a => step a wd) wd actions.

(** The entries a callback has been called with, in order. *)
Definition delivered (c : EntryCallback) (l : list (Event LogEntry)) : list LogEntry :=
  omap (fun ev => match ev with
                  | Invoked c' entry => if decide (c' = c) then Some entry else None
                  | _ => None
                  end) l.

(** The callback invocations, in order. *)
Definition invocations (l : list (Event LogEntry))
  : list (EntryCallback * LogEntry) :=
  omap (fun ev => match ev with
                  | Invoked c entry => Some (c, entry)
                  | _ => None
                  end) l.

(** The process as server.ts creates it: a fresh watcher, nothing read,
    nothing logged. *)
Definition boot (fs : FileSystem) : World :=
  {| files := fs; watcher := new_LogFileWatcher; pending := []; log := [] |}.

(** The slice reads started, in order. *)
Definition reads (l : list (Event LogEntry)) : list PendingRead :=
  omap (fun ev => match ev with SliceRead r => Some r | _ => None end) l.


(** ** Growth of the tracked file

    What the properties below quantify over: a writer that only appends
    ([Grow]), poll ticks ([Poll]) and reads completing ([Complete], any of
    those that are out), in any order. *)
Inductive Growth (A : Type) : Type :=
  | Grow (x : A)
  | Poll
  | Complete (k : nat).

Definition growth_action (path : str) (g : Growth str) : Action :=
  match g with
  | Grow _ bytes => Append path bytes
  | Poll _ => Tick
  | Complete _ k => Resolve k
  end.

Definition grow_with {A B : Type} (f : A -> B) (g : Growth A) : Growth B :=
  match g with
  | Grow _ x => Grow _ (f x)
  | Poll _ => Poll _
  | Complete _ k => Complete _ k
  end.

Definition grown {A : Type} (sched : list (Growth A)) : list A :=
  omap (fun g => match g with Grow _ x => Some x | _ => None end) sched.

(** The reads a schedule completes: which of those out, each time. *)
Definition completions {A : Type} (sched : list (Growth A)) : list nat :=
  omap (fun g => match g with Complete _ k => Some k | _ => None end) sched.

(** Every read that completes is the oldest one out: the reads complete in
    the order they were started. *)
Definition oldest_first (ks : list nat) : bool := forallb (Nat.eqb 0) ks.

(** The bytes of a sequence of newline-terminated lines. *)
Definition encode_lines (lines : list str) : str :=
  concat (map (fun line => line ++ [newline]) lines).

(** A well-formed line: one line, which [JSON.parse] decodes. (Of what
    [JSON.parse] itself accepts nothing is blank and nothing starts with a
    byte order mark; the two middle conditions say so for an arbitrary
    runtime.) *)
Definition well_formed (line : str) : bool :=
  negb (bool_decide (newline ∈ line))
  && truthy (trim line)
  && negb (startsWith line BOM)
  && bool_decide (is_Some (JSON_parse line)).

Definition is_dir (fs : FileSystem) (path : str) : bool :=
  match fs !! path with
  | Some (Dir _) => true
  | _ => false
  end.

(** The watcher is running on the file at [path], which holds [base], with
    [lastSize] at its end (as [start] and [setSession] leave it) and no
    read out. *)
Record attached (path base : str) (wd : World) : Prop := {
  att_path : getLogFilePath (watcher wd) = Some path;
  att_truthy : truthy path = true;
  att_running : interval (watcher wd) = true;
  att_regular : is_dir (files wd) path = false;
  att_file : file_bytes (files wd) path = base;
  att_size : lastSize (watcher wd) = length base;
  att_settled : pending wd = [];
  att_subscribers : NoDup (subscribers (watcher wd));
}.

(** The byte ranges of consecutive chunks laid out from offset [off]. *)
Fixpoint ranges (path : str) (off : nat) (chunks : list str) : list PendingRead :=
  match chunks with
  | [] => []
  | chunk :: rest =>
      {| read_path := path; read_start := off; read_stop := off + length chunk |}
        :: ranges path (off + length chunk) rest
  end.

(** The chunks laid out from offset [off], each with the offset it starts
    at, and the read of one of them. *)
Fixpoint layout {A : Type} (size : A -> nat) (off : nat) (chunks : list A)
  : list (nat * A) :=
  match chunks with
  | [] => []
  | chunk :: rest => (off, chunk) :: layout size (off + size chunk) rest
  end.

(** One more tick, then reads complete as [order] has it: each number picks
    one of the reads out at that time. The watcher has caught up when none
    is left. *)
Definition flush (order : list nat) (wd : World) : World :=
  run (Tick :: map Resolve order) wd.


(** The reading of partial-line safety under which a line that arrives in
    two pieces, the first without its newline, is held back and then
    emitted once. *)
Definition partial_line_safe (path : str) (wd0 : World) (partial rest : str)
    (c : EntryCallback) : Prop :=
  let wd1 := run [Append path partial; Tick; Resolve 0] wd0 in
  let wd2 := run [Append path (rest ++ [newline]); Tick; Resolve 0] wd1 in
  delivered c (log wd1) = delivered c (log wd0)
  /\ exists entry, JSON_parse (partial ++ rest) = Some entry
                   /\ delivered c (log wd2) = delivered c (log wd0) ++ [entry].

(** The reading of C4: after a tick that finds the file shorter, whatever
    reads are out, what the subscriber gets for lines appended later is
    those lines, once each. *)
Definition resumes_from_new_baseline (path : str) (wd : World)
    (lines : list str) (order : list nat) (c : EntryCallback) : Prop :=
  let wd1 := tick wd in
  let wd2 := flush order (step (Append path (encode_lines lines)) wd1) in
  pending wd2 = [] ->
  delivered c (log wd2) = delivered c (log wd) ++ omap JSON_parse lines.



(** Both synchronous entry points return normally on every file system. *)
Definition never_propagates : Prop :=
  forall (fs : FileSystem) (w : LogFileWatcher),
    (exists entries, getAllEntries fs w = Ok entries)
    /\ (exists sessions, listSessions fs = Ok sessions).

(** The reported session id, followed by the extension, is the file
    name. *)
Definition strips_extension (fs : FileSystem) (dir filename : str) : Prop :=
  forall info, sessionInfo fs dir filename = Ok info ->
               session_id info ++ lit ".txt" = filename.

(** Every tick of a run starts with no read of an earlier tick still out,
    that is, with the emissions of all earlier ticks done. *)
Fixpoint ticks_start_settled (actions : list Action) (wd : World) : bool :=
  match actions with
  | [] => true
  | a :: rest =>
      match a with
      | Tick => bool_decide (pending wd = [])
      | _ => true
      end && ticks_start_settled rest (step a wd)
  end.

End Watcher.

Arguments Grow {A} x.
Arguments Poll {A}.
Arguments Complete {A}.

(** * The server (server.ts)

    The HTTP front of the watcher: one [LogFileWatcher] shared by all
    requests, static files, the two JSON end points and the event stream. *)

(** [path.lastIndexOf(c)]: -1 when [c] does not occur. The strings here are
    UTF-8 bytes, the code's are UTF-16 code units; for the ASCII character
    the server looks for, the text from its last occurrence on is the same
    in both. *)
Fixpoint lastIndexOf (c : ascii) (s : str) : Z :=
  match s with
  | [] => (-1)%Z
  | x :: s' =>
      let i := lastIndexOf c s' in
      if (0 <=? i)%Z then (1 + i)%Z
      else if decide (x = c) then 0%Z else (-1)%Z
  end.

(** [s.substring(start)]: a negative [start] counts as 0, one past the end
    as the length. *)
Definition substring (start : Z) (s : str) : str := drop (Z.to_nat start) s.

(** The value of a header as the code hands it to [Response]: a string, or,
    where a lookup in an object literal hits a member the literal inherits
    from [Object.prototype], that member. *)
Inductive HeaderValue : Type :=
  | Str (s : str)
  | Inherited (member : str).

Definition MIME_TYPES : list (str * str) :=
  [ (lit ".html", lit "text/html");
    (lit ".css", lit "text/css");
    (lit ".js", lit "application/javascript");
    (lit ".json", lit "application/json") ].

(** The members of [Object.prototype], which a property lookup on an object
    literal finds when the literal has no such key of its own; all of them
    are truthy. *)
Definition Object_prototype : list str :=
  map lit [ "constructor"; "hasOwnProperty"; "isPrototypeOf";
            "propertyIsEnumerable"; "toLocaleString"; "toString"; "valueOf";
            "__defineGetter__"; "__defineSetter__"; "__lookupGetter__";
            "__lookupSetter__"; "__proto__" ]%string.

Fixpoint own_property (key : str) (object : list (str * str)) : option str :=
  match object with
  | [] => None
  | (k, v) :: rest => if decide (k = key) then Some v else own_property key rest
  end.

Definition getMimeType (path : str) : HeaderValue :=
  let ext := substring (lastIndexOf "."%char path) path in
  match own_property ext MIME_TYPES with
  | Some mime =>
      if truthy mime then Str mime else Str (lit "application/octet-stream")
  | None =>
      if bool_decide (ext ∈ Object_prototype) then Inherited ext
      else Str (lit "application/octet-stream")
  end.

(** [formatSSE(event, data)], on the text [JSON.stringify(data)] gives. *)
Definition formatSSE (event json : str) : str :=
  lit "event: " ++ event ++ newline :: lit "data: " ++ json ++ [newline; newline].

(** A response: the status, the headers the code sets (not the ones
    [Response] adds by itself) and the body. A file body is the file as it
    is when the response is sent; the body of the event stream is named by
    the callback that feeds it, with what [start] has enqueued. *)
Inductive Body : Type :=
  | Text (s : str)
  | FileBody (path : str)
  | EventStream (callback : EntryCallback) (enqueued : str).

Record Response : Type := mkResponse {
  status : nat;
  headers : list (str * HeaderValue);
  body : Body;
}.

(** What [handleRequest] reads of a request: the method, [url.pathname] and
    [url.searchParams.get("session")]. *)
Record Request : Type := mkRequest {
  method : str;
  pathname : str;
  session_param : option str;
}.

(** [url.pathname] as the URL parser leaves it: the dot segments are
    resolved, so no segment is [..]. *)
Definition slash : ascii := ascii_of_nat 47.

Definition dot_segments_resolved (path : str) : Prop :=
  lit ".." ∉ split slash path.

(** What server.ts takes from outside: the two members of [PATHS] it uses,
    the value of the environment variable [CURRENT_SESSION_ENV] names,
    [JSON.stringify] on the three kinds of value it serialises (the entries
    come from [JSON.parse], so it returns a string on each), and what
    [Bun.file(path).exists()] answers for a directory. *)
Class ServerRuntime (R : Runtime) : Type := {
  INDEX_HTML : str;
  STYLES_DIR : str;
  CURRENT_SESSION : option str;
  stringify_entries : list LogEntry -> str;
  stringify_entry : LogEntry -> str;
  stringify_sessions : list SessionInfo -> option str -> str;
  directory_exists : bool;
}.

Section Server.
Context `{R : Runtime} `{!ServerRuntime R}.

(** The module constant [currentSessionId] of server.ts:
    [process.env[CURRENT_SESSION_ENV] || null]. *)
Definition server_currentSessionId : option str :=
  match CURRENT_SESSION with
  | Some id => if truthy id then Some id else None
  | None => None
  end.

(** The process: the watcher with the files and the event loop around it,
    and the number of closures [handleSSE] has created, which names the
    next one. *)
Record Server : Type := mkServer {
  world : World;
  closures : nat;
}.

(** The module body: a new watcher, started, then put on the session of the
    environment if there is one. *)
Definition serve (fs : FileSystem) : Server :=
  let w := start fs new_LogFileWatcher in
  let w := match server_currentSessionId with
           | Some id => if truthy id then setSession id fs w else w
           | None => w
           end in
  {| world := {| files := fs; watcher := w; pending := []; log := [] |};
     closures := 0 |}.

Definition Bun_file_exists (fs : FileSystem) (path : str) : bool :=
  match fs !! path with
  | Some (File _) => true
  | Some (Dir _) => directory_exists
  | None => false
  end.

Definition not_found : Response :=
  {| status := 404; headers := []; body := Text (lit "Not Found") |}.

Definition serveFile (fs : FileSystem) (path : str) : Response :=
  if negb (Bun_file_exists fs path) then not_found
  else {| status := 200;
          headers := [(lit "Content-Type", getMimeType path)];
          body := FileBody path |}.

Definition handleSessionsList (fs : FileSystem) : Result Response :=
  sessions ← listSessions fs;
  Ok {| status := 200; headers := [];
        body := Text (stringify_sessions sessions server_currentSessionId) |}.

(** [handleSSE]: the stream's [start] runs when the stream is made. It
    enqueues the snapshot and subscribes a new closure, which enqueues
    [formatSSE("entry", entry)] for every entry it is called with and
    catches what [enqueue] throws. The heartbeat timer is left out. *)
Definition handleSSE (sv : Server) : Result (Response * Server) :=
  let wd := world sv in
  entries ← getAllEntries (files wd) (watcher wd);
  let callback := closures sv in
  Ok ({| status := 200;
         headers := [ (lit "Content-Type", Str (lit "text/event-stream"));
                      (lit "Cache-Control", Str (lit "no-cache"));
                      (lit "Connection", Str (lit "keep-alive"));
                      (lit "Access-Control-Allow-Origin", Str (lit "*")) ];
         body := EventStream callback
                   (formatSSE (lit "entries") (stringify_entries entries)) |},
      {| world := with_watcher (subscribe callback (watcher wd)) wd;
         closures := S (closures sv) |}).

(** The stream's [cancel]: the closure is unsubscribed. *)
Definition cancel (callback : EntryCallback) (sv : Server) : Server :=
  {| world := step (CallUnsubscribe callback) (world sv);
     closures := closures sv |}.

(** What a stream has had enqueued by its closure over a log, after the
    snapshot. *)
Definition entry_frames (callback : EntryCallback)
    (l : list (Event LogEntry)) : list str :=
  map (fun entry => formatSSE (lit "entry") (stringify_entry entry))
      (delivered callback l).

(** [url.searchParams.get("session") || currentSessionId] *)
Definition requested_session (req : Request) : option str :=
  match session_param req with
  | Some session => if truthy session then Some session else server_currentSessionId
  | None => server_currentSessionId
  end.

(** The lines the two routes [/events] and [/api/entries] share:
    [if (session && session !== watcher.getCurrentSessionId())
       watcher.setSession(session)]. *)
Definition select_session (req : Request) (sv : Server) : Server :=
  let wd := world sv in
  match requested_session req with
  | Some session =>
      if truthy session
         && negb (bool_decide (Some session = getCurrentSessionId (watcher wd)))
      then {| world := with_watcher (setSession session (files wd) (watcher wd)) wd;
              closures := closures sv |}
      else sv
  | None => sv
  end.

Definition handleRequest (req : Request) (sv : Server)
  : Result (Response * Server) :=
  let path := pathname req in
  let get := bool_decide (method req = lit "GET") in
  let fs := files (world sv) in
  if bool_decide (path = lit "/") && get then
    Ok (serveFile fs INDEX_HTML, sv)
  else if startsWith path (lit "/styles/") && get then
    Ok (serveFile fs (STYLES_DIR ++ replace (lit "/styles") [] path), sv)
  else if bool_decide (path = lit "/events") && get then
    handleSSE (select_session req sv)
  else if bool_decide (path = lit "/api/sessions") && get then
    response ← handleSessionsList fs;
    Ok (response, sv)
  else if bool_decide (path = lit "/api/entries") && get then
    let sv1 := select_session req sv in
    entries ← getAllEntries (files (world sv1)) (watcher (world sv1));
    Ok ({| status := 200;
           headers := [ (lit "Content-Type", Str (lit "application/json"));
                        (lit "Access-Control-Allow-Origin", Str (lit "*")) ];
           body := Text (stringify_entries entries) |},
        sv1)
  else Ok (not_found, sv).

(** What happens in the server process, one thing at a time: a request is
    handled, a client goes away and its stream is cancelled, the writer
    appends to a file or replaces it, the watcher's timer fires, one of the
    reads that are out completes. A request that throws has changed nothing
    before:
    only [listSessions] throws, in a route that changes nothing. *)
Inductive Happening : Type :=
  | Requested (req : Request)
  | Cancelled (callback : EntryCallback)
  | Wrote (path bytes : str)
  | Replaced (path content : str)
  | TimerFired
  | ReadCompleted (k : nat).

Definition on_world (f : World -> World) (sv : Server) : Server :=
  {| world := f (world sv); closures := closures sv |}.

Definition happen (h : Happening) (sv : Server) : Server :=
  match h with
  | Requested req =>
      match handleRequest req sv with
      | Ok (_, sv') => sv'
      | Throw _ => sv
      end
  | Cancelled callback => cancel callback sv
  | Wrote path bytes => on_world (step (Append path bytes)) sv
  | Replaced path content => on_world (step (Overwrite path content)) sv
  | TimerFired => on_world tick sv
  | ReadCompleted k => on_world (resolve k) sv
  end.

(** The server after a history, from the start of the process. *)
Definition serving (fs : FileSystem) (history : list Happening) : Server :=
  foldl (fun sv h => happen h sv) (serve fs) history.

(** A stream of frames, each an event name with the text of its data. *)
Definition frames (messages : list (str * str)) : str :=
  concat (map (fun m => formatSSE (fst m) (snd m)) messages).

(** The lines a frame takes up: the event, the data, a blank line. *)
Definition frame_lines (m : str * str) : list str :=
  [lit "event: " ++ fst m; lit "data: " ++ snd m; []].

End Server.

(** ** A runtime to run the model on

    [json_lite] decodes a fragment of JSON (no escapes in strings, integers
    only): what it accepts is JSON, and the texts the examples need rejected
    are not. It stands in for [JSON.parse] wherever a concrete run is
    evaluated. *)

#[warnings="-register-all"]
Inductive Json : Type :=
  | JNull
  | JBool (b : bool)
  | JNumber (digits : str)
  | JString (s : str)
  | JArray (items : list Json)
  | JObject (members : list (str * Json)).

Definition dquote : ascii := ascii_of_nat 34.
Definition backslash : ascii := ascii_of_nat 92.

Definition quoted (s : string) : str := dquote :: lit s ++ [dquote].

Definition json_ws (c : ascii) : bool :=
  let n := nat_of_ascii c in (n =? 32) || (n =? 9) || (n =? 10) || (n =? 13).

Definition is_digit (c : ascii) : bool :=
  let n := nat_of_ascii c in (48 <=? n) && (n <=? 57).

Fixpoint skip_ws (s : str) : str :=
  match s with
  | c :: s' => if json_ws c then skip_ws s' else s
  | [] => []
  end.

Fixpoint lex_string (s : str) : option (str * str) :=
  match s with
  | [] => None
  | c :: s' =>
      if decide (c = dquote) then Some ([], s')
      else if decide (c = backslash) then None
      else if nat_of_ascii c <? 32 then None
      else match lex_string s' with
           | Some (body, rest) => Some (c :: body, rest)
           | None => None
           end
  end.

Fixpoint lex_digits (s : str) : str * str :=
  match s with
  | c :: s' =>
      if is_digit c then let '(ds, rest) := lex_digits s' in (c :: ds, rest)
      else ([], s)
  | [] => ([], [])
  end.

Definition lex_int (s : str) : option (str * str) :=
  let '(sign, s1) :=
    match s with
    | c :: s' => if decide (c = "-"%char) then ([c], s') else ([], s)
    | [] => ([], s)
    end in
  match lex_digits s1 with
  | ([], _) => None
  | (d :: ds, rest) =>
      if decide (d = "0"%char) then
        match ds with [] => Some (sign ++ [d], rest) | _ => None end
      else Some (sign ++ d :: ds, rest)
  end.

Fixpoint parse_value (fuel : nat) (s : str) : option (Json * str) :=
  match fuel with
  | 0 => None
  | S fuel' =>
      let s := skip_ws s in
      if startsWith s (lit "null") then Some (JNull, drop 4 s)
      else if startsWith s (lit "true") then Some (JBool true, drop 4 s)
      else if startsWith s (lit "false") then Some (JBool false, drop 5 s)
      else match s with
           | [] => None
           | c :: s' =>
               if decide (c = dquote) then
                 match lex_string s' with
                 | Some (body, rest) => Some (JString body, rest)
                 | None => None
                 end
               else if decide (c = "["%char) then
                 match skip_ws s' with
                 | c' :: rest =>
                     if decide (c' = "]"%char) then Some (JArray [], rest)
                     else match parse_items fuel' s' with
                          | Some (items, rest') => Some (JArray items, rest')
                          | None => None
                          end
                 | [] => None
                 end
               else if decide (c = "{"%char) then
                 match skip_ws s' with
                 | c' :: rest =>
                     if decide (c' = "}"%char) then Some (JObject [], rest)
                     else match parse_members fuel' s' with
                          | Some (members, rest') => Some (JObject members, rest')
                          | None => None
                          end
                 | [] => None
                 end
               else match lex_int s with
                    | Some (ds, rest) => Some (JNumber ds, rest)
                    | None => None
                    end
           end
  end
with parse_items (fuel : nat) (s : str) : option (list Json * str) :=
  match fuel with
  | 0 => None
  | S fuel' =>
      match parse_value fuel' s with
      | Some (v, rest) =>
          match skip_ws rest with
          | c :: rest' =>
              if decide (c = "]"%char) then Some ([v], rest')
              else if decide (c = ","%char) then
                match parse_items fuel' rest' with
                | Some (vs, rest'') => Some (v :: vs, rest'')
                | None => None
                end
              else None
          | [] => None
          end
      | None => None
      end
  end
with parse_members (fuel : nat) (s : str) : option (list (str * Json) * str) :=
  match fuel with
  | 0 => None
  | S fuel' =>
      match skip_ws s with
      | q :: s1 =>
          if decide (q = dquote) then
            match lex_string s1 with
            | Some (key, s2) =>
                match skip_ws s2 with
                | colon :: s3 =>
                    if decide (colon = ":"%char) then
                      match parse_value fuel' s3 with
                      | Some (v, rest) =>
                          match skip_ws rest with
                          | c :: rest' =>
                              if decide (c = "}"%char) then Some ([(key, v)], rest')
                              else if decide (c = ","%char) then
                                match parse_members fuel' rest' with
                                | Some (ms, rest'') => Some ((key, v) :: ms, rest'')
                                | None => None
                                end
                              else None
                          | [] => None
                          end
                      | None => None
                      end
                    else None
                | [] => None
                end
            | None => None
            end
          else None
      | [] => None
      end
  end.

Definition json_lite (s : str) : option Json :=
  match parse_value (2 * length s + 2) s with
  | Some (v, rest) => match skip_ws rest with [] => Some v | _ => None end
  | None => None
  end.

(** [value.timestamp ?? ''] on a decoded value; with a key given twice
    [JSON.parse] keeps the last one. *)
Fixpoint last_member (key : str) (members : list (str * Json)) : option Json :=
  match members with
  | [] => None
  | (k, v) :: rest =>
      match last_member key rest with
      | Some v' => Some v'
      | None => if decide (k = key) then Some v else None
      end
  end.

(** [String(value)] on the values of the examples: an element of an array
    that is [null] gives the empty string, an object the fixed text (the
    examples have no object with a [toString] member of its own). *)
Fixpoint js_String (v : Json) : str :=
  match v with
  | JNull => lit "null"
  | JBool b => if b then lit "true" else lit "false"
  | JNumber digits => if bool_decide (digits = lit "-0") then lit "0" else digits
  | JString s => s
  | JArray items =>
      Array_join ","%char
        (map (fun item => match item with JNull => [] | _ => js_String item end)
             items)
  | JObject _ => lit "[object Object]"
  end.

Definition json_timestamp (v : Json) : option Timestamp :=
  match v with
  | JNull => None
  | JObject members =>
      match last_member (lit "timestamp") members with
      | Some (JString s) => Some (Stamp s)
      | Some JNull | None => Some (Stamp [])
      | Some other => Some (NotString (Some (js_String other)))
      end
  | _ => Some (Stamp [])
  end.

(** The last-entry timestamps of the specification's listing example. *)
Definition jan01_10 : str := lit "2024-01-01T10:00:00Z".
Definition jan02_09 : str := lit "2024-01-02T09:00:00Z".
Definition jan01_15 : str := lit "2024-01-01T15:00:00Z".

(** [localeCompare] on the strings of the examples, which collate as their
    code units order them. *)
Definition compare_code_units (a b : str) : Z :=
  match lex_compare a b with
  | Lt => (-1)%Z
  | Eq => 0%Z
  | Gt => 1%Z
  end.

(** An engine's sort for sessions of which some have a string for their
    last entry and some have not: one that compares as insertion from the
    right does, and stops at the first comparison that throws. *)
Definition compare_by_code_units (a b : SessionInfo) : Result Z :=
  match last_entry b with
  | Stamp sb =>
      match String_of (last_entry a) with
      | Some sa => Ok (compare_code_units sb sa)
      | None => Throw TypeError
      end
  | NotString _ => Throw TypeError
  end.

Fixpoint insert_throwing {A : Type} (cmp : A -> A -> Result Z) (x : A)
    (l : list A) : Result (list A) :=
  match l with
  | [] => Ok [x]
  | y :: l' =>
      z ← cmp x y;
      if (z <=? 0)%Z then Ok (x :: y :: l')
      else rest ← insert_throwing cmp x l'; Ok (y :: rest)
  end.

Fixpoint sort_throwing {A : Type} (cmp : A -> A -> Result Z) (l : list A)
  : Result (list A) :=
  match l with
  | [] => Ok []
  | x :: l' => sorted ← sort_throwing cmp l'; insert_throwing cmp x sorted
  end.

(** A runtime with the logs under [logs/], directories of 4096 bytes and
    subscribers that never throw ([quiet_runtime]), or with subscriber 1
    throwing on every entry ([faulty_runtime]). *)
Definition session_path (id : str) : str := lit "logs/" ++ id ++ lit ".txt".

Definition quiet_runtime : Runtime := {|
  LogEntry := Json;
  JSON_parse := json_lite;
  timestamp_of := json_timestamp;
  localeCompare := compare_code_units;
  LOGS_DIR := lit "logs";
  getSessionLogPath := session_path;
  directory_size := fun _ => 4096;
  sort_mixed := sort_throwing compare_by_code_units;
  throws := fun _ _ _ => false;
|}.

Definition faulty_runtime : Runtime := {|
  LogEntry := Json;
  JSON_parse := json_lite;
  timestamp_of := json_timestamp;
  localeCompare := compare_code_units;
  LOGS_DIR := lit "logs";
  getSessionLogPath := session_path;
  directory_size := fun _ => 4096;
  sort_mixed := sort_throwing compare_by_code_units;
  throws := fun c _ _ => bool_decide (c = 1);
|}.

(** [JSON.stringify] on the values of the examples: what [json_lite]
    decodes has nothing to escape in its strings, and the integers of the
    examples are small. *)
Definition json_string (s : str) : str := dquote :: s ++ [dquote].

Definition json_array (items : list str) : str :=
  lit "[" ++ Array_join ","%char items ++ lit "]".

Definition json_object (members : list (str * str)) : str :=
  lit "{"
  ++ Array_join ","%char
       (map (fun m => json_string (fst m) ++ ":"%char :: snd m) members)
  ++ lit "}".

Fixpoint json_text (v : Json) : str :=
  match v with
  | JNull => lit "null"
  | JBool b => if b then lit "true" else lit "false"
  | JNumber digits => if bool_decide (digits = lit "-0") then lit "0" else digits
  | JString s => json_string s
  | JArray items => json_array (map json_text items)
  | JObject members =>
      json_object (map (fun m => (fst m, json_text (snd m))) members)
  end.

Definition entries_text (entries : list Json) : str :=
  json_array (map json_text entries).

Definition decimal (n : nat) : str :=
  lit (NilZero.string_of_uint (Nat.to_uint n)).

(** The timestamps of the examples that are not strings are numbers. *)
Definition stamp_text (t : Timestamp) : str :=
  match t with
  | Stamp s => json_string s
  | NotString text => default (lit "null") text
  end.

Definition session_text (info : SessionInfo) : str :=
  json_object [ (lit "session_id", json_string (session_id info));
                (lit "file_path", json_string (file_path info));
                (lit "first_entry", stamp_text (first_entry info));
                (lit "last_entry", stamp_text (last_entry info));
                (lit "entry_count", decimal (entry_count info));
                (lit "size_bytes", decimal (size_bytes info)) ].

Definition sessions_text (sessions : list SessionInfo) (current : option str)
  : str :=
  json_object [ (lit "sessions", json_array (map session_text sessions));
                (lit "current_session",
                 match current with
                 | Some id => json_string id
                 | None => lit "null"
                 end) ].

(** A server over [quiet_runtime] with no session in its environment. *)
Definition quiet_server : ServerRuntime quiet_runtime := {|
  INDEX_HTML := lit "public/index.html";
  STYLES_DIR := lit "public/styles";
  CURRENT_SESSION := None;
  stringify_entries := entries_text : list (@LogEntry quiet_runtime) -> str;
  stringify_entry := json_text : @LogEntry quiet_runtime -> str;
  stringify_sessions := sessions_text;
  directory_exists := false;
|}.

(** ** Concrete file systems and runs *)

Section Examples.
#[local] Existing Instance quiet_runtime.

Definition s1_path : str := session_path (lit "s1").
Definition s2_path : str := session_path (lit "s2").

Definition line_a : str :=
  lit "{" ++ quoted "timestamp" ++ lit ":" ++ quoted "t1" ++ lit "}".
Definition line_b : str := lit "[1,2]".
Definition line_c : str := lit "{}".

(** A running watcher on session s1, with two subscribers. *)
Definition s1_watcher (size : nat) : LogFileWatcher :=
  {| lastSize := size; interval := true; subscribers := [7; 8];
     currentSessionId := Some (lit "s1") |}.

(** Before the first line is written. *)
Definition fresh_world : World :=
  {| files := ∅; watcher := s1_watcher 0; pending := []; log := [] |}.

(** Two lines written and delivered, then the file cut back to one line. *)
Definition truncated_world : World :=
  run [Append s1_path (encode_lines [line_a; line_b]); Tick; Resolve 0;
       Overwrite s1_path (encode_lines [line_b])] fresh_world.



Definition byte_run : list (Growth str) :=
  [Grow (encode_lines [line_b]); Poll; Complete 0; Grow (lit "[3"); Poll].

(** Two lines, each found by a tick of its own, and the read of the second
    completing first. *)
Definition overtaking_run : list (Growth (list str)) :=
  [Grow [line_a]; Poll; Grow [line_b]; Poll; Complete 1].

(** A line written and found by a tick, and the file emptied while its read
    is out. *)
Definition cut_under_read : World :=
  run [Append s1_path (encode_lines [line_b]); Tick; Overwrite s1_path []]
      fresh_world.


(** One line on file, found by a tick, and a second one written since. *)
Definition reading_and_behind : World :=
  run [Append s1_path (encode_lines [line_a]); Tick;
       Append s1_path (encode_lines [line_b])] fresh_world.

(** A log file whose only line carries the timestamp [t]. *)
Definition stamped (t : str) : Node :=
  File (lit "{" ++ quoted "timestamp" ++ lit ":" ++ dquote :: t ++ dquote
          :: lit "}" ++ [newline]).

Definition three_sessions : FileSystem :=
  <[ lit "logs" := Dir [lit "a.txt"; lit "b.txt"; lit "c.txt"; lit ".gitkeep"] ]>
    (<[ lit "logs/a.txt" := stamped jan01_10 ]>
       (<[ lit "logs/b.txt" := stamped jan02_09 ]>
          (<[ lit "logs/c.txt" := stamped jan01_15 ]> ∅))).

(** Two log files whose only line has a number for its timestamp. *)
Definition numbered (n : string) : Node :=
  File (lit "{" ++ quoted "timestamp" ++ lit ":" ++ lit n ++ lit "}" ++ [newline]).

Definition numeric_stamps : FileSystem :=
  <[ lit "logs" := Dir [lit "a.txt"; lit "b.txt"] ]>
    (<[ lit "logs/a.txt" := numbered "5" ]>
       (<[ lit "logs/b.txt" := numbered "5" ]> ∅)).

(** A directory entry named like a log file that is not a regular file. *)
Definition unreadable_entry : FileSystem :=
  <[ lit "logs" := Dir [lit "a.txt"] ]> (<[ lit "logs/a.txt" := Dir [] ]> ∅).

(** A log file whose name holds the extension twice. *)
Definition dotted_name : FileSystem :=
  <[ lit "logs" := Dir [lit "a.txtb.txt"] ]>
    (<[ lit "logs/a.txtb.txt" := stamped jan01_10 ]> ∅).


(** One line on file that no tick has seen. *)
Definition unpolled_world : World :=
  step (Append s1_path (encode_lines [line_a])) fresh_world.

(** A log with a line that does not decode and a blank one. *)
Definition mixed_lines : list str := [line_a; lit "oops"; lit "  "; line_b].

Definition mixed_log : FileSystem :=
  {[ lit "logs/s1.txt" := File (encode_lines mixed_lines) ]}.
End Examples.

Section ServerExamples.
#[local] Existing Instance quiet_runtime.
#[local] Existing Instance quiet_server.

(** The files of a site: the page, a style sheet and two session logs. *)
Definition site : FileSystem :=
  <[ lit "public/index.html" := File (lit "<html></html>") ]>
    (<[ lit "public/styles/main.css" := File (lit "body{}") ]>
       (<[ lit "logs" := Dir [lit "s1.txt"; lit "s2.txt"] ]>
          (<[ s1_path := File (encode_lines [line_a; line_b]) ]>
             (<[ s2_path := File (encode_lines [line_c]) ]> ∅)))).

Definition get (path : string) (session : option str) : Request :=
  {| method := lit "GET"; pathname := lit path; session_param := session |}.

(** The server of the site once a request has put it on session s2, and
    the answer to that request. *)
Definition on_s2 : Server :=
  {| world := step (CallSetSession (lit "s2")) (world (serve site));
     closures := 0 |}.

Definition entries_of_s2 : Response :=
  {| status := 200;
     headers := [ (lit "Content-Type", Str (lit "application/json"));
                  (lit "Access-Control-Allow-Origin", Str (lit "*")) ];
     body := Text (lit "[{}]") |}.


(** The response of a request that was answered. *)
Definition answer (r : Result (Response * Server)) : option Response :=
  match r with
  | Ok (response, _) => Some response
  | Throw _ => None
  end.

End ServerExamples.

(** ** Notions used to state more of the watcher's behaviour *)

Section Notions.
Context `{Runtime}.

(** What [parseLines] makes of one line: nothing of a blank line or of one
    [JSON.parse] rejects. *)
Definition decodes (line : str) : option LogEntry :=
  if truthy (trim line) then JSON_parse line else None.

(** The file ends where a line ends: it is empty or its last byte is a
    newline. *)
Definition at_line_end (bytes : str) : Prop :=
  bytes = [] \/ exists body, bytes = body ++ [newline].

(** An action that leaves the files and the selected session alone. *)
Definition keeps_files_and_session (a : Action) : bool :=
  match a with
  | Append _ _ | Overwrite _ _ | CallSetSession _ => false
  | _ => true
  end.

(** An action other than subscribing the callback [c]. *)
Definition not_subscribing (c : EntryCallback) (a : Action) : bool :=
  match a with
  | CallSubscribe c' => negb (bool_decide (c' = c))
  | _ => true
  end.

End Notions.

(** * Properties *)

(** ** Strings *)

Lemma split_cons_newline (s : str) :
  split newline (newline :: s) = [] :: split newline s.
Proof. simpl. destruct (decide (newline = newline)); congruence. Qed.

Lemma split_not_nil (sep : ascii) (s : str) : split sep s <> [].
Proof.
  induction s as [|c s IH]; simpl; [discriminate|].
  destruct (decide (c = sep)); [discriminate|].
  destruct (split sep s); discriminate.
Qed.

Lemma Array_join_split (sep : ascii) (s : str) :
  Array_join sep (split sep s) = s.
Proof.
  induction s as [|c s IH]; [reflexivity|].
  simpl split. destruct (decide (c = sep)) as [->|Hne].
  - pose proof (split_not_nil sep s) as Hpieces.
    destruct (split sep s) as [|piece rest]; [contradiction|].
    simpl in IH |- *. rewrite IH. reflexivity.
  - destruct (split sep s) as [|piece rest].
    + simpl in IH. subst s. reflexivity.
    + simpl in IH |- *. destruct rest; rewrite <- IH; reflexivity.
Qed.

Lemma split_line (line rest : str) :
  newline ∉ line ->
  split newline (line ++ newline :: rest) = line :: split newline rest.
Proof.
  induction line as [|c line IH]; intros Hnl.
  - apply split_cons_newline.
  - apply not_elem_of_cons in Hnl as [Hc Hline].
    simpl. destruct (decide (c = newline)) as [->|_]; [congruence|].
    rewrite (IH Hline). reflexivity.
Qed.

Lemma split_encode_lines (lines : list str) :
  Forall (fun line => newline ∉ line) lines ->
  split newline (concat (map (fun line => line ++ [newline]) lines)) = lines ++ [[]].
Proof.
  induction 1 as [|line lines Hline _ IH]; [reflexivity|].
  simpl. rewrite <- app_assoc. simpl. rewrite split_line by assumption.
  rewrite IH. reflexivity.
Qed.

Lemma lex_compare_refl (a : str) : lex_compare a a = Eq.
Proof.
  induction a as [|x a IH]; [reflexivity|].
  simpl. rewrite Nat.compare_refl. exact IH.
Qed.




(** ** Sorting *)

Section SortFacts.
Context {A : Type} (cmp : A -> A -> Z).



Variable R : A -> A -> Prop.
Hypothesis R_trans : forall x y z, R x y -> R y z -> R x z.
Hypothesis R_total : forall x y, R x y \/ R y x.


End SortFacts.

(** ** Decoding and delivery *)

Section WatcherFacts.
Context `{Runtime}.

Lemma well_formed_inv (line : str) :
  well_formed line = true ->
  (newline ∉ line) /\ truthy (trim line) = true
  /\ startsWith line BOM = false /\ is_Some (JSON_parse line).
Proof.
  unfold well_formed. intros Hwf.
  apply andb_true_iff in Hwf as [Hwf Hparse].
  apply andb_true_iff in Hwf as [Hwf Hbom].
  apply andb_true_iff in Hwf as [Hnl Hblank].
  apply negb_true_iff, bool_decide_eq_false in Hnl.
  apply negb_true_iff in Hbom.
  apply bool_decide_eq_true in Hparse. auto.
Qed.

Lemma parseLines_encode_lines (lines : list str) :
  Forall (fun line => well_formed line = true) lines ->
  parseLines (encode_lines lines) = omap JSON_parse lines
  /\ Forall2 (fun line entry => JSON_parse line = Some entry)
             lines (omap JSON_parse lines).
Proof.
  intros Hwf. unfold parseLines, encode_lines.
  rewrite split_encode_lines.
  2:{ eapply Forall_impl; [exact Hwf|]. intros l Hl.
      apply well_formed_inv in Hl. tauto. }
  rewrite List.filter_app. simpl. rewrite app_nil_r.
  split.
  - f_equal. induction Hwf as [|l ls Hl _ IH]; [reflexivity|].
    simpl. apply well_formed_inv in Hl as (_ & -> & _). f_equal. exact IH.
  - induction Hwf as [|l ls Hl _ IH]; [constructor|].
    apply well_formed_inv in Hl as (_ & _ & _ & [e He]).
    simpl. rewrite He. simpl. constructor; assumption.
Qed.

(** ** The text of a slice *)

Lemma Blob_text_plain (bytes : str) :
  startsWith bytes BOM = false -> Blob_text bytes = bytes.
Proof. unfold Blob_text. intros ->. reflexivity. Qed.

Lemma startsWith_BOM_line (line rest : str) :
  startsWith line BOM = false ->
  startsWith (line ++ newline :: rest) BOM = false.
Proof.
  unfold BOM. destruct line as [|a [|b [|c line]]]; simpl;
    repeat match goal with
           | |- context [decide ?P] => destruct (decide P)
           end;
    try reflexivity; try discriminate; auto.
  intros Hline. destruct line; discriminate Hline.
Qed.

Lemma Blob_text_encode_lines (lines : list str) :
  Forall (fun line => well_formed line = true) lines ->
  Blob_text (encode_lines lines) = encode_lines lines.
Proof.
  intros Hwf. apply Blob_text_plain.
  destruct Hwf as [|line lines Hline _]; [reflexivity|].
  apply well_formed_inv in Hline as (_ & _ & Hbom & _).
  unfold encode_lines. simpl. rewrite <- app_assoc. simpl.
  apply startsWith_BOM_line, Hbom.
Qed.

Lemma encode_lines_app (xs ys : list str) :
  encode_lines (xs ++ ys) = encode_lines xs ++ encode_lines ys.
Proof. unfold encode_lines. rewrite map_app, concat_app. reflexivity. Qed.

Lemma encode_lines_nil (lines : list str) :
  encode_lines lines = [] -> lines = [].
Proof.
  destruct lines as [|l ls]; [reflexivity|].
  unfold encode_lines. simpl. rewrite <- app_assoc.
  intros Hnil. apply app_eq_nil in Hnil as [_ Hnil]. discriminate.
Qed.

Lemma delivered_app (c : EntryCallback) (l1 l2 : list (Event LogEntry)) :
  delivered c (l1 ++ l2) = delivered c l1 ++ delivered c l2.
Proof. apply omap_app. Qed.

Lemma reads_app (l1 l2 : list (Event LogEntry)) :
  reads (l1 ++ l2) = reads l1 ++ reads l2.
Proof. apply omap_app. Qed.

Lemma emit_loop_app (xs ys : list EntryCallback) (entry : LogEntry)
    (log : list (Event LogEntry)) :
  emit_loop (xs ++ ys) entry log = emit_loop ys entry (emit_loop xs entry log).
Proof.
  revert log. induction xs as [|c xs IH]; intros log; [reflexivity|].
  simpl. destruct (throws c entry log); apply IH.
Qed.

Lemma reads_emit_loop (cbs : list EntryCallback) (entry : LogEntry)
    (log : list (Event LogEntry)) :
  reads (emit_loop cbs entry log) = reads log.
Proof.
  revert log. induction cbs as [|c cbs IH]; intros log; simpl; [reflexivity|].
  destruct (throws c entry log); rewrite IH, !reads_app; simpl;
    rewrite ?app_nil_r; reflexivity.
Qed.

Lemma delivered_emit_loop_other (c : EntryCallback) (cbs : list EntryCallback)
    (entry : LogEntry) (log : list (Event LogEntry)) :
  c ∉ cbs -> delivered c (emit_loop cbs entry log) = delivered c log.
Proof.
  revert log. induction cbs as [|c' cbs IH]; intros log Hc; simpl; [reflexivity|].
  apply not_elem_of_cons in Hc as [Hne Hc].
  destruct (throws c' entry log); rewrite (IH _ Hc), !delivered_app; simpl;
    destruct (decide (c' = c)); try congruence; rewrite ?app_nil_r; reflexivity.
Qed.

Lemma delivered_emit_loop (c : EntryCallback) (cbs : list EntryCallback)
    (entry : LogEntry) (log : list (Event LogEntry)) :
  NoDup cbs -> c ∈ cbs ->
  delivered c (emit_loop cbs entry log) = delivered c log ++ [entry].
Proof.
  intros Hnodup. revert log.
  induction Hnodup as [|c' cbs Hc' Hnodup IH]; intros log Hc.
  - apply elem_of_nil in Hc. contradiction.
  - simpl. destruct (decide (c' = c)) as [->|Hne].
    + destruct (throws c entry log);
        rewrite (delivered_emit_loop_other _ _ _ _ Hc'), !delivered_app; simpl;
        destruct (decide (c = c)); try congruence; rewrite ?app_nil_r; reflexivity.
    + apply elem_of_cons in Hc as [Heq|Hc]; [congruence|].
      destruct (throws c' entry log); rewrite (IH _ Hc), !delivered_app; simpl;
        destruct (decide (c' = c)); try congruence; rewrite ?app_nil_r; reflexivity.
Qed.

Lemma deliver_unfold (w : LogFileWatcher) (entries : list LogEntry)
    (log : list (Event LogEntry)) :
  forall c, NoDup (subscribers w) -> c ∈ subscribers w ->
  delivered c (foldl (fun log entry => emit w entry log) log entries)
  = delivered c log ++ entries.
Proof.
  intros c Hnodup Hc. revert log.
  induction entries as [|e entries IH]; intros log; simpl.
  - symmetry. apply app_nil_r.
  - rewrite IH. unfold emit. rewrite delivered_emit_loop by assumption.
    rewrite <- app_assoc. reflexivity.
Qed.

Lemma delivered_deliver (w : LogFileWatcher) (content : str)
    (log : list (Event LogEntry)) (c : EntryCallback) :
  NoDup (subscribers w) -> c ∈ subscribers w ->
  delivered c (deliver w content log) = delivered c log ++ parseLines content.
Proof. intros. unfold deliver. apply deliver_unfold; assumption. Qed.

Lemma reads_deliver (w : LogFileWatcher) (content : str)
    (log : list (Event LogEntry)) :
  reads (deliver w content log) = reads log.
Proof.
  unfold deliver. generalize (parseLines content) as entries. intros entries.
  revert log. induction entries as [|e entries IH]; intros log; simpl; [reflexivity|].
  rewrite IH. apply reads_emit_loop.
Qed.

(** ** Tailing a growing file *)

Lemma run_app (xs ys : list Action) (wd : World) :
  run (xs ++ ys) wd = run ys (run xs wd).
Proof. apply foldl_app. Qed.

Lemma file_bytes_appendFile (path bytes : str) (fs : FileSystem) :
  is_dir fs path = false ->
  file_bytes (appendFile path bytes fs) path = file_bytes fs path ++ bytes.
Proof.
  unfold is_dir, appendFile, file_bytes at 1. intros Hdir.
  destruct (fs !! path) as [[content|names]|] eqn:Hfs; try discriminate;
    rewrite lookup_insert_eq; reflexivity.
Qed.

Lemma is_dir_appendFile (path bytes : str) (fs : FileSystem) :
  is_dir fs path = false -> is_dir (appendFile path bytes fs) path = false.
Proof.
  unfold is_dir, appendFile. intros Hdir.
  destruct (fs !! path) as [[content|names]|] eqn:Hfs; try discriminate;
    rewrite lookup_insert_eq; reflexivity.
Qed.

Lemma getFileSize_bytes (fs : FileSystem) (w : LogFileWatcher) (path : str) :
  getLogFilePath w = Some path -> truthy path = true ->
  is_dir fs path = false ->
  getFileSize fs w = length (file_bytes fs path).
Proof.
  unfold getFileSize, Bun_file_size, file_bytes, is_dir. intros -> -> Hreg.
  destruct (fs !! path) as [[content|names]|]; [reflexivity|discriminate|reflexivity].
Qed.

Lemma getAllEntries_bytes (fs : FileSystem) (w : LogFileWatcher) :
  getAllEntries fs w
  = Ok (match getLogFilePath w with
        | Some path => if truthy path then parseLines (file_bytes fs path) else []
        | None => []
        end).
Proof.
  unfold getAllEntries, Bun_file_size, readFileSync, file_bytes.
  destruct (getLogFilePath w) as [path|]; [|reflexivity].
  destruct (truthy path); [|reflexivity].
  destruct (fs !! path) as [[bytes|names]|]; try reflexivity.
  - simpl. destruct bytes; reflexivity.
  - simpl. destruct (directory_size path =? 0); reflexivity.
Qed.

Lemma lookup_file_bytes (fs : FileSystem) (path : str) :
  file_bytes fs path <> [] -> fs !! path = Some (File (file_bytes fs path)).
Proof.
  unfold file_bytes. destruct (fs !! path) as [[content|names]|]; congruence.
Qed.

Lemma slice_middle (a b c : str) :
  slice (length a) (length a + length b) (a ++ b ++ c) = b.
Proof.
  unfold slice. rewrite drop_app_length.
  replace (length a + length b - length a) with (length b) by lia.
  apply take_app_length.
Qed.

Lemma ranges_snoc (path : str) (off : nat) (chunks : list str) (chunk : str) :
  ranges path off (chunks ++ [chunk])
  = ranges path off chunks
    ++ [{| read_path := path; read_start := off + length (concat chunks);
           read_stop := off + length (concat chunks) + length chunk |}].
Proof.
  revert off. induction chunks as [|c chunks IH]; intros off; simpl.
  - rewrite Nat.add_0_r. reflexivity.
  - rewrite IH, length_app, !Nat.add_assoc. reflexivity.
Qed.

Ltac flatten_lists :=
  repeat first
    [ rewrite concat_app | rewrite app_nil_r | rewrite length_app
    | progress simpl ].

Lemma concat_chunks (groups : list (list str)) :
  concat (map (fun group => concat group) groups) = concat (concat groups).
Proof.
  induction groups as [|g groups IH]; simpl; [reflexivity|].
  rewrite concat_app, IH. reflexivity.
Qed.

Lemma lookup_map {A B : Type} (f : A -> B) (l : list A) (k : nat) :
  map f l !! k = f <$> (l !! k).
Proof. exact (list_lookup_fmap f l k). Qed.

Lemma delete_map {A B : Type} (f : A -> B) (l : list A) (k : nat) :
  delete k (map f l) = map f (delete k l).
Proof. symmetry. exact (list_fmap_delete f l k). Qed.

Lemma oldest_first_app (xs ys : list nat) :
  oldest_first (xs ++ ys) = oldest_first xs && oldest_first ys.
Proof. apply forallb_app. Qed.

(** The slices a run of appends and ticks has cut the appended pieces into:
    a group of pieces is what one tick found. *)
Definition weight (group : list str) : nat := length (concat group).

Definition read_of (path : str) (slot : nat * list str) : PendingRead :=
  {| read_path := path; read_start := fst slot;
     read_stop := fst slot + weight (snd slot) |}.

Lemma layout_snoc (off : nat) (groups : list (list str)) (group : list str) :
  layout weight off (groups ++ [group])
  = layout weight off groups
    ++ [(off + length (concat (concat groups)), group)].
Proof.
  revert off. induction groups as [|g groups IH]; intros off; simpl.
  - rewrite Nat.add_0_r. reflexivity.
  - rewrite IH, concat_app, length_app. unfold weight.
    rewrite !Nat.add_assoc. reflexivity.
Qed.

Lemma layout_groups (off : nat) (groups : list (list str)) :
  map snd (layout weight off groups) = groups.
Proof.
  revert off. induction groups as [|g groups IH]; intros off; simpl;
    [reflexivity|]. rewrite IH. reflexivity.
Qed.

Lemma ranges_layout (path : str) (off : nat) (groups : list (list str)) :
  ranges path off (map (fun group => concat group) groups)
  = map (read_of path) (layout weight off groups).
Proof.
  revert off. induction groups as [|g groups IH]; intros off; simpl;
    [reflexivity|]. rewrite IH. reflexivity.
Qed.

(** Where a slot of the layout lies among the bytes. *)
Lemma layout_slice (off : nat) (groups : list (list str)) (slot : nat * list str) :
  slot ∈ layout weight off groups ->
  exists before after,
    concat (concat groups) = before ++ concat (snd slot) ++ after
    /\ fst slot = off + length before.
Proof.
  revert off. induction groups as [|g groups IH]; intros off Hin; simpl in Hin.
  - apply elem_of_nil in Hin. contradiction.
  - apply elem_of_cons in Hin as [->|Hin].
    + exists [], (concat (concat groups)). simpl.
      rewrite concat_app, Nat.add_0_r. auto.
    + destruct (IH _ Hin) as (before & after & Hcut & Hoff).
      exists (concat g ++ before), after. simpl.
      rewrite concat_app, Hcut, Hoff, length_app, <- !app_assoc.
      unfold weight. split; [reflexivity|lia].
Qed.

(** Where a run of appends, ticks and completed reads has got to. The
    appended pieces fall into those a tick has found, one group of pieces
    per slice ([started], in file order), and those no tick has seen yet
    ([unread]). Of the slices, some have been read and decoded ([done], in
    the order their reads completed) and the reads of the others are out
    ([queued], with where they start). With [in_order] every read that has
    completed was the oldest one out. *)
Record tailing (path base : str) (wd0 wd : World) (in_order : bool)
    (started done : list (list str)) (queued : list (nat * list str))
    (unread : list str) : Prop := {
  tl_regular : is_dir (files wd) path = false;
  tl_file : file_bytes (files wd) path
            = base ++ concat (concat started) ++ concat unread;
  tl_watcher : watcher wd
               = set_lastSize (length base + length (concat (concat started)))
                              (watcher wd0);
  tl_pending : pending wd = map (read_of path) queued;
  tl_queued : sublist queued (layout weight (length base) started);
  tl_done : done ++ map snd queued ≡ₚ started;
  tl_order : in_order = true -> done ++ map snd queued = started;
  tl_nonempty : Forall (fun group => concat group <> []) started;
  tl_reads : reads (log wd)
             = reads (log wd0)
               ++ ranges path (length base)
                         (map (fun group => concat group) started);
  tl_delivered : forall c, c ∈ subscribers (watcher wd0) ->
      delivered c (log wd)
      = delivered c (log wd0)
        ++ concat (map (fun group => parseLines (Blob_text (concat group))) done);
}.

Lemma tailing_start (path base : str) (wd0 : World) (in_order : bool) :
  attached path base wd0 -> tailing path base wd0 wd0 in_order [] [] [] [].
Proof.
  intros [Hpath Htruthy Hrun Hreg Hfile Hsize Hsettled Hnodup].
  split; simpl; rewrite ?app_nil_r; auto.
  - rewrite !Nat.add_0_r, <- Hsize. destruct (watcher wd0); reflexivity.
  - intros c _. symmetry. apply app_nil_r.
Qed.

Lemma tailing_weaken (path base : str) (wd0 wd : World) (in_order later : bool)
    (started done : list (list str)) (queued : list (nat * list str))
    (unread : list str) :
  tailing path base wd0 wd in_order started done queued unread ->
  tailing path base wd0 wd (in_order && later) started done queued unread.
Proof.
  intros [Hreg Hfile Hw Hpending Hqueued Hdone Horder Hne Hreads Hdel].
  split; auto. intros Hboth. apply andb_true_iff in Hboth as [Hin _]. auto.
Qed.

Lemma tailing_grow (path base : str) (wd0 wd : World) (in_order : bool)
    (started done : list (list str)) (queued : list (nat * list str))
    (unread : list str) (bytes : str) :
  tailing path base wd0 wd in_order started done queued unread ->
  tailing path base wd0 (step (Append path bytes) wd) in_order
          started done queued (unread ++ [bytes]).
Proof.
  intros [Hreg Hfile Hw Hpending Hqueued Hdone Horder Hne Hreads Hdel].
  split; simpl; auto using is_dir_appendFile.
  rewrite file_bytes_appendFile, Hfile by assumption.
  rewrite concat_app. simpl. rewrite app_nil_r, <- !app_assoc. reflexivity.
Qed.

Lemma tailing_poll (path base : str) (wd0 wd : World) (in_order : bool)
    (started done : list (list str)) (queued : list (nat * list str))
    (unread : list str) :
  attached path base wd0 ->
  tailing path base wd0 wd in_order started done queued unread ->
  exists started' queued' unread',
    concat started ++ unread = concat started' ++ unread'
    /\ concat unread' = []
    /\ tailing path base wd0 (tick wd) in_order started' done queued' unread'.
Proof.
  intros Hatt [Hreg Hfile Hw Hpending Hqueued Hdone Horder Hne Hreads Hdel].
  assert (getLogFilePath (watcher wd) = Some path) as Hpath.
  { rewrite Hw. exact (att_path _ _ _ Hatt). }
  assert (interval (watcher wd) = true) as Hrun.
  { rewrite Hw. exact (att_running _ _ _ Hatt). }
  assert (lastSize (watcher wd)
          = length base + length (concat (concat started))) as Hlast.
  { rewrite Hw. reflexivity. }
  assert (length (file_bytes (files wd) path)
          = lastSize (watcher wd) + length (concat unread)) as Hsize.
  { rewrite Hfile, Hlast, !length_app. lia. }
  pose proof (att_truthy _ _ _ Hatt) as Htruthy.
  unfold tick, checkForChanges.
  rewrite Hrun, (getFileSize_bytes _ _ _ Hpath Htruthy Hreg), Hpath, Htruthy.
  destruct (Nat.ltb_spec (lastSize (watcher wd)) (length (file_bytes (files wd) path)))
    as [Hgrown|Hsame].
  - exists (started ++ [unread]),
           (queued ++ [(length base + length (concat (concat started)), unread)]),
           [].
    split; [rewrite concat_app; simpl; rewrite !app_nil_r; reflexivity|].
    split; [reflexivity|].
    assert (concat unread <> []) as Hunread.
    { intros Hnil. rewrite Hnil in Hsize. simpl in Hsize. lia. }
    split; simpl; auto.
    + rewrite Hfile, !concat_app. simpl. rewrite !app_nil_r, <- ?app_assoc.
      reflexivity.
    + rewrite Hw. unfold set_lastSize. simpl. f_equal.
      rewrite Hsize, Hlast, !concat_app, !length_app. simpl.
      rewrite app_nil_r. lia.
    + rewrite Hpending, map_app. simpl. unfold read_of at 2, weight. simpl.
      rewrite Hsize, Hlast. reflexivity.
    + rewrite layout_snoc. apply sublist_app; [exact Hqueued|reflexivity].
    + rewrite map_app. simpl. rewrite app_assoc, Hdone. reflexivity.
    + intros Hin. rewrite map_app. simpl. rewrite app_assoc, (Horder Hin).
      reflexivity.
    + apply Forall_app. split; [exact Hne|].
      constructor; [exact Hunread|constructor].
    + rewrite reads_app, Hreads. simpl.
      rewrite map_app. simpl.
      rewrite ranges_snoc, concat_chunks, <- app_assoc, Hsize, Hlast.
      reflexivity.
    + intros c Hc. rewrite delivered_app, (Hdel c Hc). simpl.
      apply app_nil_r.
  - exists started, queued, unread. split; [reflexivity|].
    destruct (Nat.ltb_spec (length (file_bytes (files wd) path)) (lastSize (watcher wd)))
      as [Hshrunk|_]; [lia|].
    split; [apply length_zero_iff_nil; lia|].
    split; simpl; auto.
Qed.

Lemma tailing_complete (path base : str) (wd0 wd : World) (in_order : bool)
    (started done : list (list str)) (queued : list (nat * list str))
    (unread : list str) (k : nat) :
  attached path base wd0 ->
  tailing path base wd0 wd in_order started done queued unread ->
  exists done' queued',
    tailing path base wd0 (resolve k wd) (in_order && (0 =? k))
            started done' queued' unread.
Proof.
  intros Hatt Htl.
  destruct (queued !! k) as [slot|] eqn:Hslot.
  2:{ exists done, queued. apply tailing_weaken.
      destruct Htl as [Hreg Hfile Hw Hpending Hqueued Hdone Horder Hne Hreads Hdel].
      unfold resolve. rewrite Hpending, lookup_map, Hslot. simpl.
      split; auto. }
  destruct (list_elem_of_split_length _ _ _ Hslot) as (q1 & q2 & Hsplit & Hk).
  destruct Htl as [Hreg Hfile Hw Hpending Hqueued Hdone Horder Hne Hreads Hdel].
  exists (done ++ [snd slot]), (q1 ++ q2).
  assert (slot ∈ layout weight (length base) started) as Hin.
  { eapply elem_of_sublist; [|exact Hqueued].
    rewrite Hsplit. apply elem_of_app. right. left. }
  destruct (layout_slice _ _ _ Hin) as (before & after & Hcut & Hoff).
  assert (concat (snd slot) <> []) as Hgroup.
  { rewrite Forall_forall in Hne. apply Hne.
    rewrite <- (layout_groups (length base) started).
    apply list_elem_of_In, in_map, list_elem_of_In. exact Hin. }
  assert (file_bytes (files wd) path <> []) as Hbytes.
  { rewrite Hfile, Hcut. intros Hnil.
    apply app_eq_nil in Hnil as [_ Hnil].
    apply app_eq_nil in Hnil as [Hnil _].
    apply app_eq_nil in Hnil as [_ Hnil].
    apply app_eq_nil in Hnil as [Hnil _]. contradiction. }
  unfold resolve. rewrite Hpending, lookup_map, Hslot. simpl.
  rewrite (lookup_file_bytes _ _ Hbytes), Hfile, Hcut.
  assert (slice (fst slot) (fst slot + weight (snd slot))
                (base ++ (before ++ concat (snd slot) ++ after) ++ concat unread)
          = concat (snd slot)) as ->.
  { rewrite Hoff, <- length_app. unfold weight.
    rewrite (app_assoc base), <- !app_assoc, (app_assoc base).
    apply slice_middle. }
  rewrite delete_map, Hsplit, Hk, delete_middle.
  split; simpl; auto.
  - etransitivity; [|exact Hqueued]. rewrite Hsplit.
    apply sublist_app; [reflexivity|]. apply sublist_cons. reflexivity.
  - rewrite <- Hdone, Hsplit, !map_app. simpl.
    rewrite <- !app_assoc. apply Permutation_app_head. simpl.
    apply Permutation_middle.
  - intros Hboth. apply andb_true_iff in Hboth as [Hord Hzero].
    destruct q1; [|discriminate]. simpl.
    rewrite <- (Horder Hord), Hsplit, <- app_assoc. reflexivity.
  - rewrite reads_deliver. exact Hreads.
  - intros c Hc. rewrite delivered_deliver.
    + rewrite (Hdel c Hc), map_app, concat_app. simpl.
      rewrite app_nil_r, <- app_assoc. reflexivity.
    + rewrite Hw. exact (att_subscribers _ _ _ Hatt).
    + rewrite Hw. exact Hc.
Qed.

(** Every run of appends, ticks and completed reads from an attached
    watcher keeps the file, [lastSize], the reads that are out and the log
    in step. *)
Lemma growth_invariant (path base : str) (wd0 : World) (sched : list (Growth str)) :
  attached path base wd0 ->
  exists started done queued unread,
    grown sched = concat started ++ unread
    /\ tailing path base wd0 (run (map (growth_action path) sched) wd0)
               (oldest_first (completions sched)) started done queued unread.
Proof.
  intros Hatt. induction sched as [|g sched IH] using rev_ind.
  - exists [], [], [], []. split; [reflexivity|]. apply tailing_start, Hatt.
  - destruct IH as (started & done & queued & unread & Hgrown & Htl).
    rewrite map_app, run_app. unfold grown, completions. rewrite !omap_app.
    fold (grown sched). fold (completions sched).
    rewrite Hgrown, oldest_first_app. simpl.
    destruct g as [bytes| |k]; simpl.
    + exists started, done, queued, (unread ++ [bytes]).
      split; [rewrite <- !app_assoc; reflexivity|].
      rewrite andb_true_r. apply tailing_grow, Htl.
    + destruct (tailing_poll _ _ _ _ _ _ _ _ _ Hatt Htl)
        as (started' & queued' & unread' & Heq & _ & Htl').
      exists started', done, queued', unread'.
      split; [rewrite app_nil_r, Heq; reflexivity|].
      rewrite andb_true_r. exact Htl'.
    + destruct (tailing_complete _ _ _ _ _ _ _ _ _ k Hatt Htl)
        as (done' & queued' & Htl').
      exists started, done', queued', unread.
      split; [rewrite app_nil_r; reflexivity|].
      rewrite andb_true_r. exact Htl'.
Qed.

(** ** Subscribers *)

Lemma invocations_app (l1 l2 : list (Event LogEntry)) :
  invocations (l1 ++ l2) = invocations l1 ++ invocations l2.
Proof. apply omap_app. Qed.

Lemma invocations_emit_loop (cbs : list EntryCallback) (entry : LogEntry)
    (log : list (Event LogEntry)) :
  invocations (emit_loop cbs entry log)
  = invocations log ++ map (fun c => (c, entry)) cbs.
Proof.
  revert log. induction cbs as [|c cbs IH]; intros log; simpl.
  - symmetry. apply app_nil_r.
  - destruct (throws c entry log); rewrite IH, !invocations_app; simpl;
      rewrite ?app_nil_r, <- app_assoc; reflexivity.
Qed.

Lemma invocations_deliver (w : LogFileWatcher) (content : str)
    (log : list (Event LogEntry)) :
  invocations (deliver w content log)
  = invocations log
    ++ flat_map (fun entry => map (fun c => (c, entry)) (subscribers w))
                (parseLines content).
Proof.
  unfold deliver. generalize (parseLines content) as entries. intros entries.
  revert log. induction entries as [|e entries IH]; intros log; simpl.
  - symmetry. apply app_nil_r.
  - rewrite IH. unfold emit. rewrite invocations_emit_loop, <- app_assoc.
    reflexivity.
Qed.

Lemma Set_add_NoDup (c : EntryCallback) (s : list EntryCallback) :
  NoDup s -> NoDup (Set_add c s).
Proof.
  intros Hs. unfold Set_add. destruct (decide (c ∈ s)) as [Hin|Hout]; [exact Hs|].
  apply NoDup_app. split; [exact Hs|]. split.
  - intros x Hx Hxc. apply list_elem_of_singleton in Hxc. subst. contradiction.
  - apply NoDup_singleton.
Qed.






(** C7. Whatever a subscriber's callback does, [emit] calls every
    subscriber once with the entry, in the order of the set; a callback
    that throws has its error reported with [console.error] right after
    the call, and the callbacks after it are called all the same. The
    continuation of a read emits every entry of the slice to every
    subscriber in this way and leaves the watcher, so its timer, as it
    was. *)
Theorem emit_isolates_subscriber_errors (wd : World) (entry : LogEntry) :
  invocations (emit (watcher wd) entry (log wd))
  = invocations (log wd) ++ map (fun c => (c, entry)) (subscribers (watcher wd))
  /\ (forall before c after,
        subscribers (watcher wd) = before ++ c :: after ->
        let log1 := emit_loop before entry (log wd) in
        emit (watcher wd) entry (log wd)
        = emit_loop after entry
            (log1 ++ Invoked c entry
               :: (if throws c entry log1 then [ConsoleError c entry] else [])))
  /\ (forall content,
        invocations (deliver (watcher wd) content (log wd))
        = invocations (log wd)
          ++ flat_map (fun e => map (fun c => (c, e)) (subscribers (watcher wd)))
                      (parseLines content))
  /\ forall k, watcher (resolve k wd) = watcher wd.
Proof.
  split; [apply invocations_emit_loop|].
  split.
  { intros before c after Hsubs log1. unfold emit.
    rewrite Hsubs, emit_loop_app. fold log1. simpl.
    destruct (throws c entry log1); rewrite <- ?app_assoc; reflexivity. }
  split; [intros content; apply invocations_deliver|].
  intros k. unfold resolve. destruct (pending wd !! k) as [r|]; [|reflexivity].
  destruct (files wd !! read_path r) as [[bytes|names]|]; reflexivity.
Qed.


(** ** No loss and no duplication on pure growth *)

Lemma length_ranges (path : str) (off : nat) (chunks : list str) :
  length (ranges path off chunks) = length chunks.
Proof.
  revert off. induction chunks as [|c chunks IH]; intros off; simpl; auto.
Qed.

Lemma ranges_lower_bound (path : str) (off : nat) (chunks : list str) :
  Forall (fun chunk => chunk <> []) chunks ->
  Forall (fun r => read_path r = path /\ off <= read_start r < read_stop r)
         (ranges path off chunks).
Proof.
  intros Hne. revert off. induction Hne as [|c chunks Hc _ IH]; intros off; simpl.
  - constructor.
  - assert (0 < length c) by (destruct c; simpl; [congruence|lia]).
    constructor; [simpl; split; [reflexivity|lia]|].
    eapply Forall_impl; [apply IH|]. simpl. intros r [Hp Hr]. split; [exact Hp|lia].
Qed.


Lemma tick_files (wd : World) : files (tick wd) = files wd.
Proof.
  unfold tick, checkForChanges. destruct (interval (watcher wd)); [|reflexivity].
  destruct (lastSize (watcher wd) <? getFileSize (files wd) (watcher wd)).
  - destruct (getLogFilePath (watcher wd)) as [logPath|]; [|reflexivity].
    destruct (truthy logPath); reflexivity.
  - destruct (getFileSize (files wd) (watcher wd) <? lastSize (watcher wd));
      reflexivity.
Qed.

(** Reads completing, any of those out each time, keep the run in step. *)
Lemma tailing_completes (path base : str) (wd0 : World) (order : list nat) :
  attached path base wd0 ->
  forall (wd : World) (in_order : bool) (started done : list (list str))
         (queued : list (nat * list str)) (unread : list str),
  tailing path base wd0 wd in_order started done queued unread ->
  exists done' queued',
    tailing path base wd0 (run (map Resolve order) wd)
            (in_order && oldest_first order) started done' queued' unread.
Proof.
  intros Hatt.
  induction order as [|k order IH]; intros wd in_order started done queued unread Htl.
  - exists done, queued. simpl. rewrite andb_true_r. exact Htl.
  - destruct (tailing_complete _ _ _ _ _ _ _ _ _ k Hatt Htl)
      as (done1 & queued1 & Htl1).
    destruct (IH _ _ _ _ _ _ Htl1) as (done' & queued' & Htl').
    exists done', queued'.
    change (oldest_first (k :: order)) with ((0 =? k) && oldest_first order).
    rewrite andb_assoc. exact Htl'.
Qed.

(** After [flush], once no read is left out, every appended byte is in a
    slice that has been read and decoded. *)
Lemma tailing_flush (path base : str) (wd0 wd : World) (in_order : bool)
    (started done : list (list str)) (queued : list (nat * list str))
    (unread : list str) (order : list nat) :
  attached path base wd0 ->
  tailing path base wd0 wd in_order started done queued unread ->
  pending (flush order wd) = [] ->
  exists started' done' unread',
    concat started ++ unread = concat started' ++ unread'
    /\ concat unread' = []
    /\ tailing path base wd0 (flush order wd) (in_order && oldest_first order)
               started' done' [] unread'.
Proof.
  intros Hatt Htl Hsettled.
  destruct (tailing_poll _ _ _ _ _ _ _ _ _ Hatt Htl)
    as (started1 & queued1 & unread1 & Heq1 & Hunread & Htl1).
  destruct (tailing_completes path base wd0 order Hatt _ _ _ _ _ _ Htl1)
    as (done' & queued' & Htl').
  change (run (map Resolve order) (tick wd)) with (flush order wd) in Htl'.
  assert (queued' = []) as ->.
  { eapply map_eq_nil. rewrite <- (tl_pending _ _ _ _ _ _ _ _ _ Htl').
    exact Hsettled. }
  exists started1, done', unread1. auto.
Qed.

Lemma map_eq_concat {A B : Type} (f : A -> B) (l : list A) (groups : list (list B)) :
  map f l = concat groups ->
  exists groups', l = concat groups' /\ groups = map (map f) groups'.
Proof.
  revert l. induction groups as [|g groups IH]; intros l Hl; simpl in Hl.
  - apply map_eq_nil in Hl. subst. exists []. auto.
  - apply map_eq_app in Hl as (l1 & l2 & -> & Hg & Hrest).
    destruct (IH _ Hrest) as (groups' & -> & ->).
    exists (l1 :: groups'). simpl. rewrite Hg. auto.
Qed.

Lemma concat_map_concat {A : Type} (groups : list (list (list A))) :
  concat (map (fun group => concat group) groups) = concat (concat groups).
Proof.
  induction groups as [|g groups IH]; simpl; [reflexivity|].
  rewrite concat_app, IH. reflexivity.
Qed.

Lemma concat_Permutation {A : Type} (xs ys : list (list A)) :
  xs ≡ₚ ys -> concat xs ≡ₚ concat ys.
Proof.
  induction 1 as [|x xs ys _ IH|x y xs|xs ys zs _ IH1 _ IH2]; simpl.
  - reflexivity.
  - rewrite IH. reflexivity.
  - rewrite !app_assoc. apply Permutation_app_tail, Permutation_app_comm.
  - etransitivity; eassumption.
Qed.

Lemma encode_lines_concat (payloads : list (list str)) :
  concat (map encode_lines payloads) = encode_lines (concat payloads).
Proof.
  induction payloads as [|ls payloads IH]; simpl; [reflexivity|].
  rewrite encode_lines_app, IH. reflexivity.
Qed.

Lemma grown_grow_with {A B : Type} (f : A -> B) (sched : list (Growth A)) :
  grown (map (grow_with f) sched) = map f (grown sched).
Proof.
  induction sched as [|g sched IH]; simpl; [reflexivity|].
  destruct g; simpl; rewrite ?IH; reflexivity.
Qed.

Lemma completions_grow_with {A B : Type} (f : A -> B) (sched : list (Growth A)) :
  completions (map (grow_with f) sched) = completions sched.
Proof.
  induction sched as [|g sched IH]; simpl; [reflexivity|].
  destruct g; simpl; rewrite ?IH; reflexivity.
Qed.

(** The slices of whole well-formed lines decode to those lines, slice by
    slice. *)
Lemma decode_groups (groups : list (list (list str))) :
  Forall (Forall (fun line => well_formed line = true)) (concat groups) ->
  concat (map (fun group => parseLines (Blob_text (concat group)))
              (map (map encode_lines) groups))
  = omap JSON_parse (concat (map (fun group => concat group) groups)).
Proof.
  induction groups as [|g groups IH]; intros Hwf; simpl; [reflexivity|].
  simpl in Hwf. apply Forall_app in Hwf as [Hg Hgroups].
  rewrite omap_app, IH by assumption. f_equal.
  rewrite encode_lines_concat, Blob_text_encode_lines by apply Forall_concat, Hg.
  apply parseLines_encode_lines, Forall_concat, Hg.
Qed.






(** ** Baselines: session switch and truncation *)

(** From an attached watcher on, whatever is read and delivered comes from
    the bytes appended since, cut into consecutive slices: the slices
    started, in file order, and of these the ones whose reads have
    completed, in the order they completed. *)
Lemma attached_growth (path base : str) (wd0 : World) (sched : list (Growth str)) :
  attached path base wd0 ->
  exists (started done : list str) (unseen : str),
    concat (grown sched) = concat started ++ unseen
    /\ Forall (fun chunk => chunk <> []) started
    /\ done ⊆+ started
    /\ (oldest_first (completions sched) = true -> done `prefix_of` started)
    /\ reads (log (run (map (growth_action path) sched) wd0))
       = reads (log wd0) ++ ranges path (length base) started
    /\ forall c, c ∈ subscribers (watcher wd0) ->
         delivered c (log (run (map (growth_action path) sched) wd0))
         = delivered c (log wd0)
           ++ concat (map (fun chunk => parseLines (Blob_text chunk)) done).
Proof.
  intros Hatt.
  destruct (growth_invariant path base wd0 sched Hatt)
    as (started & done & queued & unread & Hgrown
        & [_ _ _ _ _ Hdone Horder Hne Hreads Hdel]).
  exists (map (fun group => concat group) started),
         (map (fun group => concat group) done), (concat unread).
  split.
  { rewrite Hgrown, concat_app, concat_chunks. reflexivity. }
  split; [apply Forall_map; exact Hne|].
  split.
  { rewrite <- Hdone, map_app. apply submseteq_inserts_r. reflexivity. }
  split.
  { intros Hin. rewrite <- (Horder Hin), map_app. apply prefix_app_r. reflexivity. }
  split; [exact Hreads|].
  intros c Hc. rewrite (Hdel c Hc), map_map. reflexivity.
Qed.

Lemma resolve_files (k : nat) (wd : World) : files (resolve k wd) = files wd.
Proof.
  unfold resolve. destruct (pending wd !! k) as [r|]; [|reflexivity].
  destruct (files wd !! read_path r) as [[bytes|names]|]; reflexivity.
Qed.

Lemma resolve_watcher (k : nat) (wd : World) : watcher (resolve k wd) = watcher wd.
Proof.
  unfold resolve. destruct (pending wd !! k) as [r|]; [|reflexivity].
  destruct (files wd !! read_path r) as [[bytes|names]|]; reflexivity.
Qed.





(** The tick that sees the file shorter than [lastSize]. *)
Lemma tick_shrunk (wd : World) (path : str) :
  getLogFilePath (watcher wd) = Some path ->
  truthy path = true ->
  interval (watcher wd) = true ->
  is_dir (files wd) path = false ->
  length (file_bytes (files wd) path) < lastSize (watcher wd) ->
  tick wd = with_watcher
              (set_lastSize (length (file_bytes (files wd) path)) (watcher wd)) wd.
Proof.
  intros Hpath Htruthy Hrun Hreg Hshrunk. unfold tick, checkForChanges.
  rewrite Hrun, (getFileSize_bytes _ _ _ Hpath Htruthy Hreg).
  destruct (Nat.ltb_spec (lastSize (watcher wd)) (length (file_bytes (files wd) path)));
    [lia|].
  destruct (Nat.ltb_spec (length (file_bytes (files wd) path)) (lastSize (watcher wd)));
    [reflexivity|lia].
Qed.

(** C4. A tick that finds the file shorter than [lastSize] starts no read
    and emits nothing; it sets [lastSize] to the size it found. With no
    read in flight at that tick the watcher is then attached at that size:
    in every run of appends, ticks and completed reads that follows, the
    reads completing in any order, the slices read start at or after the
    new size and the subscribers are called with what is decoded from the
    slices of the bytes appended since, each slice once, nothing from
    before. *)
Theorem truncation_resets_baseline (wd : World) (path : str)
    (sched : list (Growth str)) :
  getLogFilePath (watcher wd) = Some path ->
  truthy path = true ->
  interval (watcher wd) = true ->
  is_dir (files wd) path = false ->
  length (file_bytes (files wd) path) < lastSize (watcher wd) ->
  let kept := file_bytes (files wd) path in
  let wd1 := tick wd in
  let wd2 := run (map (growth_action path) sched) wd1 in
  log wd1 = log wd
  /\ pending wd1 = pending wd
  /\ lastSize (watcher wd1) = length kept
  /\ (pending wd = [] -> NoDup (subscribers (watcher wd)) ->
      exists (started done : list str) (unseen : str),
        concat (grown sched) = concat started ++ unseen
        /\ done ⊆+ started
        /\ (oldest_first (completions sched) = true -> done `prefix_of` started)
        /\ reads (log wd2) = reads (log wd) ++ ranges path (length kept) started
        /\ Forall (fun r => length kept <= read_start r < read_stop r)
                  (ranges path (length kept) started)
        /\ forall c, c ∈ subscribers (watcher wd) ->
             delivered c (log wd2)
             = delivered c (log wd)
               ++ concat (map (fun chunk => parseLines (Blob_text chunk)) done)).
Proof.
  intros Hpath Htruthy Hrun Hreg Hshrunk kept wd1 wd2.
  assert (wd1 = with_watcher (set_lastSize (length kept) (watcher wd)) wd) as Hwd1.
  { apply tick_shrunk; assumption. }
  split; [rewrite Hwd1; reflexivity|].
  split; [rewrite Hwd1; reflexivity|].
  split; [rewrite Hwd1; reflexivity|].
  intros Hsettled Hnodup.
  assert (attached path kept wd1) as Hatt.
  { rewrite Hwd1. split; simpl; auto. }
  destruct (attached_growth path kept wd1 sched Hatt)
    as (started & done & unseen & Hcut & Hne & Hsub & Hpre & Hreads & Hdel).
  fold wd2 in Hreads, Hdel. rewrite Hwd1 in Hreads, Hdel. simpl in Hreads, Hdel.
  exists started, done, unseen.
  split; [exact Hcut|]. split; [exact Hsub|]. split; [exact Hpre|].
  split; [exact Hreads|].
  split; [|exact Hdel].
  eapply Forall_impl; [apply ranges_lower_bound, Hne|]. simpl. tauto.
Qed.

(** ** One append, one tick, one completed read *)

Lemma attached_cycle (path base : str) (wd : World) (bytes : str) :
  attached path base wd ->
  bytes <> [] ->
  let r := {| read_path := path; read_start := length base;
              read_stop := length base + length bytes |} in
  let wd' := run [Append path bytes; Tick; Resolve 0] wd in
  attached path (base ++ bytes) wd'
  /\ watcher (run [Append path bytes; Tick] wd)
     = set_lastSize (length base + length bytes) (watcher wd)
  /\ log (run [Append path bytes; Tick] wd) = log wd ++ [SliceRead r]
  /\ pending (run [Append path bytes; Tick] wd) = [r]
  /\ log wd' = deliver (watcher wd) (Blob_text bytes) (log wd ++ [SliceRead r])
  /\ watcher wd' = set_lastSize (length base + length bytes) (watcher wd).
Proof.
  intros [Hpath Htruthy Hrun Hreg Hfile Hsize Hsettled Hnodup] Hbytes r wd'.
  assert (file_bytes (appendFile path bytes (files wd)) path = base ++ bytes)
    as Hfile'.
  { rewrite file_bytes_appendFile, Hfile by assumption. reflexivity. }
  assert (is_dir (appendFile path bytes (files wd)) path = false) as Hreg'.
  { apply is_dir_appendFile, Hreg. }
  assert (tick (step (Append path bytes) wd)
          = {| files := appendFile path bytes (files wd);
               watcher := set_lastSize (length base + length bytes) (watcher wd);
               pending := [r]; log := log wd ++ [SliceRead r] |}) as Htick.
  { unfold tick, checkForChanges. simpl.
    rewrite Hrun, (getFileSize_bytes _ _ _ Hpath Htruthy Hreg'), Hfile', Hpath,
      Htruthy, Hsize, length_app.
    assert (0 < length bytes) by (destruct bytes; simpl; [congruence|lia]).
    destruct (Nat.ltb_spec (length base) (length base + length bytes)); [|lia].
    rewrite Hsettled. reflexivity. }
  assert (wd' = {| files := appendFile path bytes (files wd);
                   watcher := set_lastSize (length base + length bytes) (watcher wd);
                   pending := [];
                   log := deliver (watcher wd) (Blob_text bytes)
                                  (log wd ++ [SliceRead r]) |})
    as Hwd'.
  { change wd' with (resolve 0 (tick (step (Append path bytes) wd))).
    rewrite Htick. unfold resolve. simpl.
    rewrite lookup_file_bytes.
    2:{ rewrite Hfile'. intros Hnil. apply app_eq_nil in Hnil as [_ Hnil].
        contradiction. }
    rewrite Hfile'.
    replace (slice (length base) (length base + length bytes) (base ++ bytes))
      with bytes.
    2:{ symmetry. rewrite <- (app_nil_r (base ++ bytes)), <- app_assoc.
        apply slice_middle. }
    reflexivity. }
  change (run [Append path bytes; Tick] wd)
    with (tick (step (Append path bytes) wd)).
  rewrite Htick. simpl.
  split; [|rewrite Hwd'; auto].
  rewrite Hwd'. split; simpl; auto using length_app.
Qed.

Lemma parseLines_fragment (fragment : str) :
  newline ∉ fragment ->
  parseLines fragment
  = if truthy (trim fragment) then option_list (JSON_parse fragment) else [].
Proof.
  intros Hnl. unfold parseLines.
  assert (split newline fragment = [fragment]) as ->.
  { induction fragment as [|c s IH]; [reflexivity|].
    apply not_elem_of_cons in Hnl as [Hc Hs]. simpl.
    destruct (decide (c = newline)); [congruence|]. rewrite (IH Hs). reflexivity. }
  simpl. destruct (truthy (trim fragment)); [|reflexivity].
  simpl. destruct (JSON_parse fragment); reflexivity.
Qed.

Lemma Blob_text_no_newline (bytes : str) :
  newline ∉ bytes -> newline ∉ Blob_text bytes.
Proof.
  intros Hnl Hin. apply Hnl. unfold Blob_text in Hin.
  destruct (startsWith bytes BOM); [|exact Hin].
  rewrite <- (take_drop 3 bytes). apply elem_of_app. right. exact Hin.
Qed.

(** C2, as the code has it. A final piece without its newline is decoded
    by the tick that finds it like any other line: the subscribers get an
    entry for it exactly when the text of the piece (the piece itself,
    less a byte order mark at its start) is not blank and decodes, and
    [lastSize] moves past it. What arrives afterwards is decoded on its
    own, so the complete line is never put together: in all, the
    subscribers get what the two pieces decode to, piece by piece. *)
Theorem partial_line_decoded_separately (path base : str) (wd0 : World)
    (partial rest : str) (c : EntryCallback) :
  attached path base wd0 ->
  c ∈ subscribers (watcher wd0) ->
  partial <> [] ->
  newline ∉ partial ->
  rest <> [] ->
  let wd1 := run [Append path partial; Tick; Resolve 0] wd0 in
  let wd2 := run [Append path rest; Tick; Resolve 0] wd1 in
  let text := Blob_text partial in
  lastSize (watcher wd1) = length base + length partial
  /\ delivered c (log wd1)
     = delivered c (log wd0)
       ++ (if truthy (trim text) then option_list (JSON_parse text) else [])
  /\ delivered c (log wd2) = delivered c (log wd1) ++ parseLines (Blob_text rest).
Proof.
  intros Hatt Hc Hpartial Hnl Hrest wd1 wd2 text.
  destruct (attached_cycle path base wd0 partial Hatt Hpartial)
    as (Hatt1 & _ & _ & _ & Hlog1 & Hw1).
  fold wd1 in Hatt1, Hlog1, Hw1.
  destruct (attached_cycle path (base ++ partial) wd1 rest Hatt1 Hrest)
    as (_ & _ & _ & _ & Hlog2 & _).
  fold wd2 in Hlog2.
  assert (subscribers (watcher wd1) = subscribers (watcher wd0)) as Hsubs.
  { rewrite Hw1. reflexivity. }
  split.
  { rewrite (att_size _ _ _ Hatt1). apply length_app. }
  pose proof (att_subscribers _ _ _ Hatt) as Hnodup.
  split.
  { rewrite Hlog1, delivered_deliver, delivered_app by assumption.
    rewrite parseLines_fragment by apply Blob_text_no_newline, Hnl.
    simpl. rewrite app_nil_r. reflexivity. }
  rewrite Hlog2, delivered_deliver, delivered_app by (rewrite Hsubs; assumption).
  simpl. rewrite app_nil_r. reflexivity.
Qed.

Lemma invocations_tick (wd : World) :
  invocations (log (tick wd)) = invocations (log wd).
Proof.
  unfold tick, checkForChanges. destruct (interval (watcher wd)); [|reflexivity].
  destruct (lastSize (watcher wd) <? getFileSize (files wd) (watcher wd)).
  - destruct (getLogFilePath (watcher wd)) as [logPath|]; [|reflexivity].
    destruct (truthy logPath); [|reflexivity].
    simpl. rewrite invocations_app. simpl. apply app_nil_r.
  - destruct (getFileSize (files wd) (watcher wd) <? lastSize (watcher wd));
      reflexivity.
Qed.

(** C3, as the code has it. A tick calls no subscriber. The tick of a
    running watcher that finds the file grown starts the read of the bytes
    from [lastSize] to the size it found, behind the reads already out,
    and moves [lastSize] to that size. The entries of a slice are emitted
    when its read completes, whichever of the reads out that is: the text
    of the slice is cut at its newlines into consecutive lines, and what
    the lines that are not blank decode to is emitted in the order of the
    lines, each entry to every subscriber before the next entry. *)
Theorem emissions_follow_the_read (wd : World) :
  invocations (log (tick wd)) = invocations (log wd)
  /\ (forall path,
        interval (watcher wd) = true ->
        getLogFilePath (watcher wd) = Some path ->
        truthy path = true ->
        lastSize (watcher wd) < getFileSize (files wd) (watcher wd) ->
        let r := {| read_path := path; read_start := lastSize (watcher wd);
                    read_stop := getFileSize (files wd) (watcher wd) |} in
        pending (tick wd) = pending wd ++ [r]
        /\ log (tick wd) = log wd ++ [SliceRead r]
        /\ watcher (tick wd)
           = set_lastSize (getFileSize (files wd) (watcher wd)) (watcher wd))
  /\ forall k r bytes,
       pending wd !! k = Some r ->
       files wd !! read_path r = Some (File bytes) ->
       let content := Blob_text (slice (read_start r) (read_stop r) bytes) in
       let lines := List.filter (fun line => truthy (trim line))
                                (split newline content) in
       pending (resolve k wd) = delete k (pending wd)
       /\ watcher (resolve k wd) = watcher wd
       /\ Array_join newline (split newline content) = content
       /\ invocations (log (resolve k wd))
          = invocations (log wd)
            ++ flat_map (fun e => map (fun c => (c, e)) (subscribers (watcher wd)))
                        (omap JSON_parse lines).
Proof.
  split; [apply invocations_tick|].
  split.
  - intros path Hrun Hpath Htruthy Hgrown r.
    unfold tick, checkForChanges. rewrite Hrun, Hpath, Htruthy.
    destruct (Nat.ltb_spec (lastSize (watcher wd))
                           (getFileSize (files wd) (watcher wd))); [|lia].
    simpl. auto.
  - intros k r bytes Hpending Hfile content lines.
    unfold resolve. rewrite Hpending, Hfile. simpl.
    split; [reflexivity|]. split; [reflexivity|].
    split; [apply Array_join_split|].
    apply invocations_deliver.
Qed.

(** ** Snapshot and session index *)

Lemma getAllEntries_returns (fs : FileSystem) (w : LogFileWatcher) :
  exists entries, getAllEntries fs w = Ok entries.
Proof. rewrite getAllEntries_bytes. eauto. Qed.

Lemma sessionInfo_regular (fs : FileSystem) (dir filename bytes : str) :
  fs !! join dir filename = Some (File bytes) ->
  exists info, sessionInfo fs dir filename = Ok info
               /\ file_path info = join dir filename.
Proof.
  intros Hfile. unfold sessionInfo, statSync_size, readFileSync.
  rewrite Hfile. simpl.
  destruct (List.filter truthy (split newline (trim bytes))) as [|firstLine more];
    [eauto|].
  destruct (truthy firstLine && truthy (List.last (firstLine :: more) []));
    [|eauto].
  destruct (JSON_parse firstLine) as [firstParsed|]; [|eauto].
  destruct (JSON_parse (List.last (firstLine :: more) [])) as [lastParsed|]; [|eauto].
  destruct (timestamp_of firstParsed); [|eauto].
  destruct (timestamp_of lastParsed); eauto.
Qed.

Lemma mapM_sessionInfo (fs : FileSystem) (names : list str) :
  log_files_regular fs names ->
  exists infos,
    mapM (sessionInfo fs LOGS_DIR) (List.filter is_log_file names) = Ok infos
    /\ map file_path infos = map (join LOGS_DIR) (List.filter is_log_file names).
Proof.
  induction 1 as [|f names Hf _ (infos & Hinfos & Hpaths)]; simpl; [eauto|].
  destruct (is_log_file f) eqn:Hlog; [|eauto].
  destruct (Hf eq_refl) as [bytes Hbytes].
  destruct (sessionInfo_regular fs LOGS_DIR f bytes Hbytes) as (info & Hinfo & Hpath).
  exists (info :: infos). simpl. rewrite Hinfo. simpl. rewrite Hinfos. simpl.
  rewrite Hpath, Hpaths. auto.
Qed.

Lemma listSessions_sorts (fs : FileSystem) (names : list str)
    (infos : list SessionInfo) :
  fs !! LOGS_DIR = Some (Dir names) ->
  mapM (sessionInfo fs LOGS_DIR) (List.filter is_log_file names) = Ok infos ->
  listSessions fs = sort_sessions infos.
Proof.
  intros Hdir Hinfos. unfold listSessions, existsSync, readdirSync.
  rewrite Hdir. simpl. rewrite Hinfos. reflexivity.
Qed.

Lemma forallb_pairs {A : Type} (p : A -> A -> bool) (xs : list A) :
  (forall a b, a ∈ xs -> b ∈ xs -> p a b = true) ->
  forallb (fun a => forallb (p a) xs) xs = true.
Proof.
  intros Hp. apply forallb_forall. intros a Ha.
  apply forallb_forall. intros b Hb.
  apply Hp; apply list_elem_of_In; assumption.
Qed.

Lemma compare_strings (a b : SessionInfo) :
  is_string (last_entry a) = true ->
  is_string (last_entry b) = true ->
  compare_last_entry a b
  = Ok (localeCompare (string_of (last_entry b)) (string_of (last_entry a))).
Proof.
  unfold compare_last_entry.
  destruct (last_entry a), (last_entry b); try discriminate. reflexivity.
Qed.

(** With string timestamps throughout the comparator never throws, and the
    sort is the stable sort by [localeCompare], later timestamps first. *)
Lemma sort_sessions_strings (infos : list SessionInfo) :
  Forall (fun info => is_string (last_entry info) = true) infos ->
  sort_sessions infos = Ok (sort by_last_entry_desc infos).
Proof.
  intros Hstrings. unfold sort_sessions.
  destruct (Nat.leb_spec (length infos) 1) as [Hshort|_].
  - destruct infos as [|a [|b more]]; simpl in *; [reflexivity|reflexivity|lia].
  - rewrite forallb_pairs; [reflexivity|].
    rewrite Forall_forall in Hstrings.
    intros a b Ha Hb. rewrite compare_strings by auto. reflexivity.
Qed.

(** With no string among two or more last entries the first comparison
    throws, whichever it is. *)
Lemma sort_sessions_no_string (infos : list SessionInfo) :
  1 < length infos ->
  Forall (fun info => is_string (last_entry info) = false) infos ->
  sort_sessions infos = Throw TypeError.
Proof.
  intros Hmany Hnone. unfold sort_sessions.
  destruct (Nat.leb_spec (length infos) 1) as [Hshort|_]; [lia|].
  rewrite Forall_forall in Hnone.
  assert (forall a b, a ∈ infos -> b ∈ infos ->
                      returns (compare_last_entry a b) = false) as Hthrows.
  { intros a b Ha Hb. specialize (Hnone b Hb). unfold compare_last_entry.
    destruct (last_entry b); [discriminate|reflexivity]. }
  destruct infos as [|a infos]; [simpl in Hmany; lia|].
  assert (forallb (fun a0 => forallb (fun b => returns (compare_last_entry a0 b))
                                     (a :: infos)) (a :: infos) = false) as ->.
  { simpl. rewrite (Hthrows a a) by (left || (right; left)). reflexivity. }
  rewrite forallb_pairs; [reflexivity|].
  intros x y Hx Hy. rewrite (Hthrows x y Hx Hy). reflexivity.
Qed.

(** C6, as the code has it. [getAllEntries] returns normally on every file
    system, with an empty sequence when no session is selected or when
    there is no file at the session's path (as when the log directory is
    missing). [listSessions] returns an empty sequence when the log
    directory is missing or lists no log file, and returns normally when
    every log file the directory lists is a regular file and the
    timestamps of their last entries are strings (or there is one log
    file only, whatever it holds). Where two or more regular log files all
    end in an entry whose timestamp is not a string, the sort's comparator
    throws and [listSessions] with it. *)
Theorem entry_points_on_missing_files (fs : FileSystem) (w : LogFileWatcher) :
  (exists entries, getAllEntries fs w = Ok entries)
  /\ (getLogFilePath w = None -> getAllEntries fs w = Ok [])
  /\ (forall path, getLogFilePath w = Some path -> fs !! path = None ->
                   getAllEntries fs w = Ok [])
  /\ (fs !! LOGS_DIR = None -> listSessions fs = Ok [])
  /\ (forall names, fs !! LOGS_DIR = Some (Dir names) ->
                    List.filter is_log_file names = [] ->
                    listSessions fs = Ok [])
  /\ (forall names, fs !! LOGS_DIR = Some (Dir names) ->
                    log_files_regular fs names ->
                    Forall (fun t => is_string t = true) (last_entries fs names)
                    \/ length (List.filter is_log_file names) <= 1 ->
                    exists sessions, listSessions fs = Ok sessions)
  /\ (forall names, fs !! LOGS_DIR = Some (Dir names) ->
                    log_files_regular fs names ->
                    1 < length (List.filter is_log_file names) ->
                    Forall (fun t => is_string t = false) (last_entries fs names) ->
                    listSessions fs = Throw TypeError).
Proof.
  split; [apply getAllEntries_returns|].
  split; [intros Hnone; unfold getAllEntries; rewrite Hnone; reflexivity|].
  split.
  { intros path Hpath Habsent. unfold getAllEntries, Bun_file_size.
    rewrite Hpath, Habsent. destruct (truthy path); reflexivity. }
  split.
  { intros Hmissing. unfold listSessions, existsSync. rewrite Hmissing.
    reflexivity. }
  split.
  { intros names Hdir Hnone. unfold listSessions, existsSync, readdirSync.
    rewrite Hdir. simpl. rewrite Hnone. reflexivity. }
  split.
  - intros names Hdir Hregular Hcase.
    destruct (mapM_sessionInfo fs names Hregular) as (infos & Hinfos & Hpaths).
    rewrite (listSessions_sorts fs names infos Hdir Hinfos).
    destruct Hcase as [Hstrings|Hshort].
    + unfold last_entries in Hstrings. rewrite Hinfos in Hstrings.
      rewrite sort_sessions_strings; [eauto|].
      apply Forall_map in Hstrings. exact Hstrings.
    + assert (length infos <= 1) as Hlen.
      { rewrite <- (length_map file_path), Hpaths, length_map. exact Hshort. }
      unfold sort_sessions.
      destruct (Nat.leb_spec (length infos) 1); [eauto|lia].
  - intros names Hdir Hregular Hmany Hnone.
    destruct (mapM_sessionInfo fs names Hregular) as (infos & Hinfos & Hpaths).
    rewrite (listSessions_sorts fs names infos Hdir Hinfos).
    unfold last_entries in Hnone. rewrite Hinfos in Hnone.
    apply sort_sessions_no_string.
    + rewrite <- (length_map file_path), Hpaths, length_map. exact Hmany.
    + apply Forall_map in Hnone. exact Hnone.
Qed.




Lemma startsWith_refl (s : str) : startsWith s s = true.
Proof.
  induction s as [|c s IH]; [reflexivity|].
  simpl. destruct (decide (c = c)); [exact IH|congruence].
Qed.

(** Where the extension occurs in a file name only at its end,
    [replace] does strip it. *)
Lemma replace_only_occurrence (pat stem : str) :
  (forall i, i < length stem -> startsWith (drop i (stem ++ pat)) pat = false) ->
  replace pat [] (stem ++ pat) = stem.
Proof.
  induction stem as [|c stem IH]; intros Hfirst.
  - destruct pat as [|p pat]; [reflexivity|].
    change (replace (p :: pat) [] ([] ++ p :: pat))
      with (if startsWith (p :: pat) (p :: pat)
            then [] ++ drop (length (p :: pat)) (p :: pat)
            else p :: replace (p :: pat) [] pat).
    rewrite startsWith_refl, drop_all. reflexivity.
  - pose proof (Hfirst 0 ltac:(simpl; lia)) as Hhead.
    change (replace pat [] ((c :: stem) ++ pat))
      with (if startsWith (drop 0 ((c :: stem) ++ pat)) pat
            then [] ++ drop (length pat) ((c :: stem) ++ pat)
            else c :: replace pat [] (stem ++ pat)).
    rewrite Hhead. f_equal. apply IH. intros i Hi.
    apply (Hfirst (S i)). simpl. lia.
Qed.

End WatcherFacts.

(** * More of the watcher *)

Section WatcherMore.
Context `{Runtime}.

#[local] Arguments trim : simpl never.

(** ** Decoding *)

Lemma split_app_newline (a b : str) :
  split newline (a ++ newline :: b) = split newline a ++ split newline b.
Proof.
  induction a as [|c a IH]; [apply split_cons_newline|].
  simpl. destruct (decide (c = newline)) as [_|_].
  - rewrite IH. reflexivity.
  - rewrite IH. pose proof (split_not_nil newline a) as Hpieces.
    destruct (split newline a) as [|piece pieces]; [contradiction|reflexivity].
Qed.

Lemma split_Array_join (lines : list str) :
  lines <> [] ->
  Forall (fun line => newline ∉ line) lines ->
  split newline (Array_join newline lines) = lines.
Proof.
  intros Hne Hlines. induction Hlines as [|line lines Hline Hlines IH];
    [contradiction|].
  destruct lines as [|next lines].
  - simpl. clear IH Hne. induction line as [|c line IH]; [reflexivity|].
    apply not_elem_of_cons in Hline as [Hc Hline]. simpl.
    destruct (decide (c = newline)); [congruence|]. rewrite (IH Hline). reflexivity.
  - change (Array_join newline (line :: next :: lines))
      with (line ++ newline :: Array_join newline (next :: lines)).
    rewrite split_line by assumption. rewrite IH by discriminate. reflexivity.
Qed.

Lemma parseLines_nil : parseLines [] = [].
Proof. reflexivity. Qed.

Lemma parseLines_pieces (pieces : list str) :
  omap JSON_parse (List.filter (fun line => truthy (trim line)) pieces)
  = omap decodes pieces.
Proof.
  induction pieces as [|piece pieces IH]; [reflexivity|].
  simpl. unfold decodes at 1. destruct (truthy (trim piece)); simpl;
    [destruct (JSON_parse piece); [f_equal|]|]; exact IH.
Qed.

(** X1. Of a sequence of lines, each ended by a newline, [parseLines] returns
    what the lines that are not blank and that [JSON.parse] accepts decode
    to, in the order of the lines; a line that does not decode yields nothing
    and costs the lines after it nothing. The same holds when the last line
    has no newline yet. *)
Theorem parseLines_skips_undecodable (lines : list str) :
  Forall (fun line => newline ∉ line) lines ->
  parseLines (encode_lines lines) = omap decodes lines
  /\ parseLines (Array_join newline lines) = omap decodes lines.
Proof.
  intros Hlines. unfold parseLines. rewrite !parseLines_pieces. split.
  - unfold encode_lines. rewrite split_encode_lines by assumption.
    rewrite omap_app. simpl. apply app_nil_r.
  - destruct lines as [|line lines]; [reflexivity|].
    rewrite split_Array_join by (assumption || discriminate). reflexivity.
Qed.

Lemma parseLines_cut (a b : str) :
  parseLines (a ++ newline :: b) = parseLines a ++ parseLines b.
Proof.
  unfold parseLines.
  rewrite split_app_newline, List.filter_app, omap_app. reflexivity.
Qed.

(** X2. Decoding a file in parts cut after newlines gives the same entries
    as decoding it whole: [parseLines] of [a], a newline and [b] is
    [parseLines a] followed by [parseLines b], and so for any number of
    parts that each end in a newline. *)
Theorem parseLines_at_line_boundaries (parts : list str) (rest : str) :
  parseLines (concat (map (fun part => part ++ [newline]) parts) ++ rest)
  = concat (map parseLines parts) ++ parseLines rest.
Proof.
  induction parts as [|part parts IH]; [reflexivity|].
  simpl. rewrite <- !app_assoc. simpl.
  rewrite parseLines_cut, IH. reflexivity.
Qed.

(** ** The snapshot *)

Lemma step_keeps_files_and_session (a : Action) (wd : World) :
  keeps_files_and_session a = true ->
  files (step a wd) = files wd
  /\ currentSessionId (watcher (step a wd)) = currentSessionId (watcher wd).
Proof.
  destruct a; try discriminate; intros _; simpl; auto.
  - split; [apply tick_files|].
    unfold tick, checkForChanges. destruct (interval (watcher wd)); [|reflexivity].
    destruct (lastSize (watcher wd) <? getFileSize (files wd) (watcher wd)).
    + destruct (getLogFilePath (watcher wd)) as [logPath|]; [|reflexivity].
      destruct (truthy logPath); reflexivity.
    + destruct (getFileSize (files wd) (watcher wd) <? lastSize (watcher wd));
        reflexivity.
  - rewrite resolve_files, resolve_watcher. auto.
  - unfold start. destruct (interval (watcher wd)); auto.
  - unfold stop. destruct (interval (watcher wd)); auto.
Qed.

(** X3. The snapshot is the decoding of the whole file of the selected
    session, whatever [lastSize], the timer and the subscribers are: no run
    of ticks, completed reads, [start], [stop], [subscribe] and unsubscribe
    calls changes what [getAllEntries] returns. *)
Theorem snapshot_independent_of_polling (wd : World) (actions : list Action) :
  forallb keeps_files_and_session actions = true ->
  getAllEntries (files (run actions wd)) (watcher (run actions wd))
  = getAllEntries (files wd) (watcher wd)
  /\ forall path, getLogFilePath (watcher wd) = Some path -> truthy path = true ->
       getAllEntries (files wd) (watcher wd)
       = Ok (parseLines (file_bytes (files wd) path)).
Proof.
  intros Hkeeps. split.
  - revert wd. induction actions as [|a actions IH]; intros wd; [reflexivity|].
    simpl in Hkeeps. apply andb_true_iff in Hkeeps as [Ha Hrest].
    simpl. rewrite (IH Hrest).
    destruct (step_keeps_files_and_session a wd Ha) as [Hfiles Hsession].
    rewrite !getAllEntries_bytes. unfold getLogFilePath.
    rewrite Hfiles, Hsession. reflexivity.
  - intros path Hpath Htruthy. rewrite getAllEntries_bytes, Hpath, Htruthy.
    reflexivity.
Qed.

(** What a run of whole-line appends has come to once the watcher has caught
    up: the entries delivered, the file and the watcher. *)
Lemma flush_growth (path base : str) (wd0 : World)
    (sched : list (Growth (list str))) (order : list nat) (c : EntryCallback) :
  attached path base wd0 ->
  Forall (Forall (fun line => well_formed line = true)) (grown sched) ->
  c ∈ subscribers (watcher wd0) ->
  let wd := flush order (run (map (growth_action path)
                                  (map (grow_with encode_lines) sched)) wd0) in
  pending wd = [] ->
  exists as_completed : list str,
    as_completed ≡ₚ concat (grown sched)
    /\ (oldest_first (completions sched ++ order) = true ->
        as_completed = concat (grown sched))
    /\ delivered c (log wd) = delivered c (log wd0) ++ omap JSON_parse as_completed
    /\ file_bytes (files wd) path = base ++ encode_lines (concat (grown sched))
    /\ currentSessionId (watcher wd) = currentSessionId (watcher wd0).
Proof.
  intros Hatt Hwf Hc wd Hsettled.
  destruct (growth_invariant path base wd0
              (map (grow_with encode_lines) sched) Hatt)
    as (started & done & queued & unread & Hgrown & Htl).
  destruct (tailing_flush _ _ _ _ _ _ _ _ _ order Hatt Htl Hsettled)
    as (started' & done' & unread' & Heq & Hunread & Htl').
  fold wd in Htl'.
  rewrite <- Hgrown, grown_grow_with in Heq.
  rewrite completions_grow_with, <- oldest_first_app in Htl'.
  apply map_eq_app in Heq as (seen & unseen & Hsplit & Hseen & Hunseen).
  apply map_eq_concat in Hseen as (groups & -> & ->).
  assert (concat unseen = []) as Hnone.
  { apply encode_lines_nil. rewrite <- encode_lines_concat, Hunseen. exact Hunread. }
  assert (concat (grown sched) = concat (concat groups)) as Hlines.
  { rewrite Hsplit, concat_app, Hnone. apply app_nil_r. }
  assert (Forall (Forall (fun line => well_formed line = true)) (concat groups))
    as Hgroups.
  { rewrite Hsplit in Hwf. apply Forall_app in Hwf. tauto. }
  destruct Htl' as [_ Hfile Hw _ _ Hdone Horder _ _ Hdel].
  simpl in Hdone, Horder. rewrite app_nil_r in Hdone, Horder.
  assert (exists completed,
             done' = map (map encode_lines) completed
             /\ completed ≡ₚ groups
             /\ (oldest_first (completions sched ++ order) = true ->
                 completed = groups)) as (completed & -> & Hperm & Hsame).
  { destruct (oldest_first (completions sched ++ order)).
    - exists groups. rewrite Horder by reflexivity. auto.
    - destruct (Permutation_map_inv _ _ Hdone) as (completed & -> & Hperm).
      exists completed. split; [reflexivity|]. split; [|discriminate].
      symmetry. exact Hperm. }
  assert (Forall (Forall (fun line => well_formed line = true)) (concat completed))
    as Hcompleted.
  { eapply Permutation_Forall; [|exact Hgroups].
    apply concat_Permutation. symmetry. exact Hperm. }
  exists (concat (map (fun group => concat group) completed)).
  split.
  { rewrite Hlines, concat_map_concat.
    apply concat_Permutation, concat_Permutation, Hperm. }
  split.
  { intros Hfirst. rewrite (Hsame Hfirst), concat_map_concat, Hlines. reflexivity. }
  split.
  { rewrite (Hdel c Hc), decode_groups by assumption. reflexivity. }
  split.
  { rewrite Hfile, Hunread. simpl. rewrite !app_nil_r, Hlines.
    rewrite <- concat_map, encode_lines_concat. reflexivity. }
  rewrite Hw. reflexivity.
Qed.

Lemma parseLines_after_line_end (base : str) (lines : list str) :
  at_line_end base ->
  Forall (fun line => well_formed line = true) lines ->
  parseLines (base ++ encode_lines lines)
  = parseLines base ++ omap JSON_parse lines.
Proof.
  intros Hend Hall.
  rewrite <- (proj1 (parseLines_encode_lines _ Hall)).
  destruct Hend as [->|[body ->]]; [reflexivity|].
  rewrite <- app_assoc. simpl.
  rewrite !parseLines_cut, parseLines_nil, app_nil_r. reflexivity.
Qed.

(** X4. A client that takes the snapshot when the watcher is attached at
    the end of a line, and from then on listens, has missed nothing and got
    nothing twice: once the watcher has caught up with a run of whole-line
    appends, whatever the order in which its reads completed, the snapshot
    of that moment is the first snapshot followed by the entries the file
    has grown by, and these are the entries delivered since, each once: in
    the same order when the reads completed in the order they were
    started, and otherwise slice by slice in the order the reads
    completed. *)
Theorem snapshot_then_live_covers_file (path base : str) (wd0 : World)
    (sched : list (Growth (list str))) (order : list nat) (c : EntryCallback) :
  attached path base wd0 ->
  at_line_end base ->
  Forall (Forall (fun line => well_formed line = true)) (grown sched) ->
  c ∈ subscribers (watcher wd0) ->
  let wd := flush order (run (map (growth_action path)
                                  (map (grow_with encode_lines) sched)) wd0) in
  pending wd = [] ->
  exists before since live,
    getAllEntries (files wd0) (watcher wd0) = Ok before
    /\ getAllEntries (files wd) (watcher wd) = Ok (before ++ since)
    /\ delivered c (log wd) = delivered c (log wd0) ++ live
    /\ live ≡ₚ since
    /\ (oldest_first (completions sched ++ order) = true -> live = since).
Proof.
  intros Hatt Hend Hwf Hc wd Hsettled.
  destruct (flush_growth path base wd0 sched order c Hatt Hwf Hc Hsettled)
    as (as_completed & Hperm & Hsame & Hdel & Hfile & Hsession).
  fold wd in Hdel, Hfile, Hsession.
  pose proof (att_path _ _ _ Hatt) as Hpath.
  pose proof (att_truthy _ _ _ Hatt) as Htruthy.
  assert (getLogFilePath (watcher wd) = Some path) as Hpath'.
  { unfold getLogFilePath in Hpath |- *. rewrite Hsession. exact Hpath. }
  exists (parseLines base), (omap JSON_parse (concat (grown sched))),
         (omap JSON_parse as_completed).
  split.
  { rewrite getAllEntries_bytes, Hpath, Htruthy, (att_file _ _ _ Hatt).
    reflexivity. }
  split.
  { rewrite getAllEntries_bytes, Hpath', Htruthy, Hfile. f_equal.
    apply parseLines_after_line_end; [exact Hend|apply Forall_concat, Hwf]. }
  split; [exact Hdel|].
  split; [rewrite Hperm; reflexivity|].
  intros Hfirst. rewrite (Hsame Hfirst). reflexivity.
Qed.

(** ** Ticks *)

Lemma getFileSize_no_path (fs : FileSystem) (w : LogFileWatcher) :
  getLogFilePath w = None -> getFileSize fs w = 0.
Proof. unfold getFileSize. intros ->. reflexivity. Qed.

Lemma getFileSize_falsy_path (fs : FileSystem) (w : LogFileWatcher) (path : str) :
  getLogFilePath w = Some path -> truthy path = false -> getFileSize fs w = 0.
Proof. unfold getFileSize. intros -> ->. reflexivity. Qed.

(** The two ways a tick of a running watcher can go. *)
Lemma tick_cases (wd : World) :
  interval (watcher wd) = true ->
  let size := getFileSize (files wd) (watcher wd) in
  (lastSize (watcher wd) < size
   /\ exists path,
        getLogFilePath (watcher wd) = Some path /\ truthy path = true
        /\ tick wd
           = {| files := files wd; watcher := set_lastSize size (watcher wd);
                pending := pending wd
                           ++ [{| read_path := path;
                                  read_start := lastSize (watcher wd);
                                  read_stop := size |}];
                log := log wd
                       ++ [SliceRead {| read_path := path;
                                        read_start := lastSize (watcher wd);
                                        read_stop := size |}] |})
  \/ (size <= lastSize (watcher wd)
      /\ tick wd = with_watcher (set_lastSize size (watcher wd)) wd).
Proof.
  intros Hrun size. unfold tick, checkForChanges. rewrite Hrun. fold size.
  destruct (Nat.ltb_spec (lastSize (watcher wd)) size) as [Hgrown|Hnot].
  - left. split; [exact Hgrown|].
    destruct (getLogFilePath (watcher wd)) as [path|] eqn:Hpath.
    + destruct (truthy path) eqn:Htruthy.
      * exists path. auto.
      * unfold size in Hgrown.
        rewrite (getFileSize_falsy_path _ _ _ Hpath Htruthy) in Hgrown. lia.
    + unfold size in Hgrown. rewrite (getFileSize_no_path _ _ Hpath) in Hgrown. lia.
  - right. split; [exact Hnot|].
    destruct (Nat.ltb_spec size (lastSize (watcher wd))) as [Hshrunk|Hsame];
      [reflexivity|].
    assert (size = lastSize (watcher wd)) as -> by lia.
    destruct wd as [fs [last running subs session] reads l]. reflexivity.
Qed.

(** X5. Every tick of a running watcher leaves [lastSize] at the size it
    found. When the file has grown it starts exactly one read, of the bytes
    from the old [lastSize] to that size, of the selected session's file;
    otherwise it starts none and logs nothing. (The test [if (!logPath)]
    inside the growth branch never holds: without a path the size is 0.) *)
Theorem tick_tracks_size (wd : World) :
  interval (watcher wd) = true ->
  let size := getFileSize (files wd) (watcher wd) in
  lastSize (watcher (tick wd)) = size
  /\ files (tick wd) = files wd
  /\ subscribers (watcher (tick wd)) = subscribers (watcher wd)
  /\ (lastSize (watcher wd) < size ->
      exists path,
        getLogFilePath (watcher wd) = Some path
        /\ pending (tick wd)
           = pending wd ++ [{| read_path := path;
                               read_start := lastSize (watcher wd);
                               read_stop := size |}])
  /\ (size <= lastSize (watcher wd) ->
      pending (tick wd) = pending wd /\ log (tick wd) = log wd).
Proof.
  intros Hrun size.
  destruct (tick_cases wd Hrun) as [[Hgrown (path & Hpath & _ & ->)]|[Hnot ->]];
    fold size in Hgrown || fold size in Hnot; simpl.
  - split; [reflexivity|]. split; [reflexivity|]. split; [reflexivity|].
    split; [intros _; exists path; auto|intros Hle; lia].
  - split; [reflexivity|]. split; [reflexivity|]. split; [reflexivity|].
    split; [intros Hlt; lia|auto].
Qed.

Lemma step_reads_nonempty (a : Action) (wd : World) :
  Forall (fun r => read_start r < read_stop r) (reads (log wd)) ->
  Forall (fun r => read_start r < read_stop r) (reads (log (step a wd))).
Proof.
  intros Hreads. destruct a; simpl; try assumption.
  - destruct (interval (watcher wd)) eqn:Hrun.
    + destruct (tick_cases wd Hrun) as [[Hgrown (path & _ & _ & ->)]|[_ ->]];
        simpl; [|assumption].
      rewrite reads_app. apply Forall_app. split; [assumption|].
      simpl. constructor; [exact Hgrown|constructor].
    + unfold tick. rewrite Hrun. assumption.
  - unfold resolve. destruct (pending wd !! k) as [r|]; [|assumption].
    destruct (files wd !! read_path r) as [[bytes|names]|]; simpl; try assumption.
    rewrite reads_deliver. assumption.
Qed.

(** X6. Whatever happens to the files and whichever sessions are selected,
    the watcher never starts a read of an empty or backwards range: in
    every run from a fresh watcher, each slice read started has its start
    before its stop. *)
Theorem reads_are_never_empty (fs : FileSystem) (actions : list Action) :
  Forall (fun r => read_start r < read_stop r)
         (reads (log (run actions (boot fs)))).
Proof.
  assert (forall wd,
             Forall (fun r => read_start r < read_stop r) (reads (log wd)) ->
             Forall (fun r => read_start r < read_stop r)
                    (reads (log (run actions wd)))) as Hrun.
  { induction actions as [|a actions IH]; intros wd Hwd; [exact Hwd|].
    simpl. apply IH, step_reads_nonempty, Hwd. }
  apply Hrun. constructor.
Qed.

(** ** Starting and stopping *)




Lemma tick_stopped (wd : World) : interval (watcher wd) = false -> tick wd = wd.
Proof. intros Hstopped. unfold tick. rewrite Hstopped. reflexivity. Qed.

Lemma ticks_stopped (n : nat) (wd : World) :
  interval (watcher wd) = false -> run (repeat Tick n) wd = wd.
Proof.
  intros Hstopped. induction n as [|n IH]; [reflexivity|].
  simpl. rewrite (tick_stopped wd Hstopped). exact IH.
Qed.

(** X8. What is appended while the watcher is stopped is never emitted:
    after [stop()] the timer does nothing, however often it would have
    fired, and the [start()] that follows takes the size of the file as it
    is then for [lastSize]. [stop()] keeps the subscribers. *)
Theorem stop_then_start_skips (path base : str) (wd0 : World) (bytes : str)
    (n : nat) :
  attached path base wd0 ->
  let wd1 := run (CallStop :: Append path bytes :: repeat Tick n) wd0 in
  log wd1 = log wd0
  /\ pending wd1 = []
  /\ lastSize (watcher wd1) = length base
  /\ subscribers (watcher wd1) = subscribers (watcher wd0)
  /\ file_bytes (files wd1) path = base ++ bytes
  /\ attached path (base ++ bytes) (step CallStart wd1).
Proof.
  intros [Hpath Htruthy Hrun Hreg Hfile Hsize Hsettled Hnodup] wd1.
  assert (wd1 = {| files := appendFile path bytes (files wd0);
                   watcher := set_interval false (watcher wd0);
                   pending := pending wd0; log := log wd0 |}) as Hwd1.
  { unfold wd1.
    change (run (CallStop :: Append path bytes :: repeat Tick n) wd0)
      with (run (repeat Tick n) (step (Append path bytes) (step CallStop wd0))).
    rewrite ticks_stopped; simpl; unfold stop; rewrite Hrun; reflexivity. }
  assert (file_bytes (files wd1) path = base ++ bytes) as Hfile1.
  { rewrite Hwd1. simpl. rewrite file_bytes_appendFile, Hfile by assumption.
    reflexivity. }
  rewrite Hwd1 in Hfile1 |- *. simpl in Hfile1 |- *.
  repeat (split; [auto; fail|]).
  unfold start. simpl.
  split; simpl; auto using is_dir_appendFile.
  rewrite <- Hfile1. apply getFileSize_bytes; auto using is_dir_appendFile.
Qed.

Lemma resolve_stop (k : nat) (wd : World) :
  resolve k (step CallStop wd) = step CallStop (resolve k wd).
Proof.
  simpl. unfold resolve, stop. simpl.
  destruct (pending wd !! k) as [r|]; [|reflexivity].
  destruct (files wd !! read_path r) as [[bytes|names]|]; simpl;
    destruct (interval (watcher wd)); reflexivity.
Qed.

(** X9. [stop()] does not cancel a read that is in flight: the reads
    started before it complete as they would have without it, in whatever
    order they do, and their entries are emitted to the subscribers all the
    same. *)
Theorem stop_keeps_reads_in_flight (wd : World) (order : list nat) :
  run (map Resolve order) (step CallStop wd)
  = step CallStop (run (map Resolve order) wd)
  /\ log (run (map Resolve order) (step CallStop wd))
     = log (run (map Resolve order) wd)
  /\ pending (run (map Resolve order) (step CallStop wd))
     = pending (run (map Resolve order) wd).
Proof.
  assert (run (map Resolve order) (step CallStop wd)
          = step CallStop (run (map Resolve order) wd)) as Hcommute.
  { revert wd. induction order as [|k order IH]; intros wd; [reflexivity|].
    change (run (map Resolve (k :: order)) (step CallStop wd))
      with (run (map Resolve order) (resolve k (step CallStop wd))).
    rewrite resolve_stop, IH. reflexivity. }
  split; [exact Hcommute|]. rewrite Hcommute. split; reflexivity.
Qed.

(** ** Subscribers over a run *)

Lemma delivered_deliver_other (w : LogFileWatcher) (content : str)
    (l : list (Event LogEntry)) (c : EntryCallback) :
  c ∉ subscribers w -> delivered c (deliver w content l) = delivered c l.
Proof.
  intros Hc. unfold deliver. generalize (parseLines content) as entries.
  intros entries. revert l.
  induction entries as [|e entries IH]; intros l; simpl; [reflexivity|].
  rewrite IH. unfold emit. apply delivered_emit_loop_other, Hc.
Qed.

Lemma step_silent (c : EntryCallback) (a : Action) (wd : World) :
  c ∉ subscribers (watcher wd) ->
  not_subscribing c a = true ->
  (c ∉ subscribers (watcher (step a wd)))
  /\ delivered c (log (step a wd)) = delivered c (log wd).
Proof.
  intros Hc Ha. destruct a; simpl; auto.
  - destruct (interval (watcher wd)) eqn:Hrun.
    + destruct (tick_cases wd Hrun) as [[_ (path & _ & _ & ->)]|[_ ->]]; simpl;
        [|auto].
      split; [exact Hc|]. rewrite delivered_app. simpl. apply app_nil_r.
    + rewrite (tick_stopped wd Hrun). auto.
  - unfold resolve. destruct (pending wd !! k) as [r|]; [|auto].
    destruct (files wd !! read_path r) as [[bytes|names]|]; simpl; auto.
    split; [exact Hc|]. apply delivered_deliver_other, Hc.
  - unfold start. destruct (interval (watcher wd)); auto.
  - unfold stop. destruct (interval (watcher wd)); auto.
  - simpl in Ha. apply negb_true_iff, bool_decide_eq_false in Ha.
    split; [|reflexivity]. unfold Set_add.
    destruct (decide (c0 ∈ subscribers (watcher wd))); [exact Hc|].
    rewrite elem_of_app, list_elem_of_singleton. intros [Hin|Heq]; auto.
  - split; [|reflexivity]. rewrite list_elem_of_filter. tauto.
Qed.

Lemma run_silent (c : EntryCallback) (actions : list Action) (wd : World) :
  c ∉ subscribers (watcher wd) ->
  forallb (not_subscribing c) actions = true ->
  (c ∉ subscribers (watcher (run actions wd)))
  /\ delivered c (log (run actions wd)) = delivered c (log wd).
Proof.
  revert wd. induction actions as [|a actions IH]; intros wd Hc Hall; [auto|].
  simpl in Hall. apply andb_true_iff in Hall as [Ha Hrest].
  destruct (step_silent c a wd Hc Ha) as [Hc' Hsame].
  destruct (IH (step a wd) Hc' Hrest) as [Hc'' Hsame'].
  simpl. split; [exact Hc''|]. rewrite Hsame'. exact Hsame.
Qed.

(** X10. Once the handle [subscribe] returned has been called, the callback
    is not called again, not even for reads that were in flight, for as long
    as it is not subscribed anew: in every run of other actions what it has
    been delivered stays as it was. *)
Theorem unsubscribed_callback_is_silent (wd : World) (c : EntryCallback)
    (actions : list Action) :
  forallb (not_subscribing c) actions = true ->
  let wd1 := step (CallUnsubscribe c) wd in
  delivered c (log (run actions wd1)) = delivered c (log wd)
  /\ (c ∉ subscribers (watcher (run actions wd1))).
Proof.
  intros Hall wd1.
  assert (c ∉ subscribers (watcher wd1)) as Hgone.
  { simpl. rewrite list_elem_of_filter. tauto. }
  destruct (run_silent c actions wd1 Hgone Hall) as [Hc Hsame].
  split; [exact Hsame|exact Hc].
Qed.


(** ** The session index *)













Lemma startsWith_app (pre rest : str) : startsWith (pre ++ rest) pre = true.
Proof.
  induction pre as [|c pre IH]; [destruct rest; reflexivity|].
  simpl. destruct (decide (c = c)); [exact IH|congruence].
Qed.

Lemma sessionInfo_names (fs : FileSystem) (dir filename : str)
    (info : SessionInfo) :
  sessionInfo fs dir filename = Ok info ->
  session_id info = replace (lit ".txt") [] filename
  /\ file_path info = join dir filename.
Proof.
  unfold sessionInfo, statSync_size, readFileSync.
  destruct (fs !! join dir filename) as [[bytes|names]|]; simpl; try discriminate.
  destruct (List.filter truthy (split newline (trim bytes))) as [|firstLine more];
    [intros [= <-]; auto|].
  destruct (truthy firstLine && truthy (List.last (firstLine :: more) []));
    [|intros [= <-]; auto].
  destruct (JSON_parse firstLine) as [firstParsed|]; [|intros [= <-]; auto].
  destruct (JSON_parse (List.last (firstLine :: more) [])) as [lastParsed|];
    [|intros [= <-]; auto].
  destruct (timestamp_of firstParsed); [|intros [= <-]; auto].
  destruct (timestamp_of lastParsed); intros [= <-]; auto.
Qed.

(** X13. A file name that is a session id followed by the extension, with
    no occurrence of the extension before that, is listed, and the
    [session_id] reported for it is that id, so that the id and the
    extension give the name of the file back. *)
Theorem session_id_round_trip (fs : FileSystem) (dir id : str)
    (info : SessionInfo) :
  (forall i, i < length id ->
             startsWith (drop i (id ++ lit ".txt")) (lit ".txt") = false) ->
  is_log_file (id ++ lit ".txt") = true
  /\ (sessionInfo fs dir (id ++ lit ".txt") = Ok info ->
      session_id info = id
      /\ file_path info = join dir (session_id info ++ lit ".txt")).
Proof.
  intros Honly. split.
  - unfold is_log_file, endsWith. rewrite rev_app_distr, startsWith_app. simpl.
    apply negb_true_iff, bool_decide_eq_false. intros Hname.
    apply (f_equal (@rev ascii)) in Hname. rewrite rev_app_distr in Hname.
    discriminate.
  - intros Hinfo. apply sessionInfo_names in Hinfo as [Hid Hpath].
    rewrite (replace_only_occurrence _ _ Honly) in Hid.
    rewrite Hpath, Hid. auto.
Qed.

End WatcherMore.

(** * The server *)

Section ServerFacts.
Context `{R : Runtime} `{!ServerRuntime R}.

(** ** Content types *)

Lemma lastIndexOf_none (c : ascii) (s : str) :
  c ∉ s -> lastIndexOf c s = (-1)%Z.
Proof.
  induction s as [|x s IH]; [reflexivity|]. intros Hc.
  apply not_elem_of_cons in Hc as [Hx Hs].
  simpl. rewrite (IH Hs). simpl. destruct (decide (x = c)); congruence.
Qed.

Lemma lastIndexOf_last (c : ascii) (stem ext : str) :
  c ∉ ext -> lastIndexOf c (stem ++ c :: ext) = Z.of_nat (length stem).
Proof.
  intros Hc. induction stem as [|x stem IH].
  - simpl. rewrite (lastIndexOf_none _ _ Hc). simpl.
    destruct (decide (c = c)); [reflexivity|congruence].
  - change (lastIndexOf c ((x :: stem) ++ c :: ext))
      with (let i := lastIndexOf c (stem ++ c :: ext) in
            if (0 <=? i)%Z then (1 + i)%Z
            else if decide (x = c) then 0%Z else (-1)%Z).
    rewrite IH. cbv zeta. simpl length.
    destruct (Z.leb_spec 0 (Z.of_nat (length stem))); lia.
Qed.

Lemma extension_is_own_or_nothing (ext : str) :
  "."%char :: ext ∉ Object_prototype.
Proof.
  unfold Object_prototype. simpl.
  repeat (apply not_elem_of_cons; split; [discriminate|]).
  apply not_elem_of_nil.
Qed.

Lemma own_property_has_dot (key mime : str) :
  own_property key MIME_TYPES = Some mime ->
  "."%char ∈ key /\ truthy mime = true.
Proof.
  unfold MIME_TYPES. simpl.
  repeat (destruct (decide _) as [<-|_];
          [intros [= <-]; split; [left|reflexivity]|]).
  discriminate.
Qed.

(** X14. The content type depends on the text from the last dot of the
    path on and on nothing else: it is the type [MIME_TYPES] has for it,
    application/octet-stream when it has none. Of a path with no dot the
    whole path is looked up, which gives application/octet-stream unless the
    path is the name of a member of [Object.prototype]. *)
Theorem getMimeType_by_extension (stem ext : str) :
  "."%char ∉ ext ->
  getMimeType (stem ++ "."%char :: ext)
  = Str (default (lit "application/octet-stream")
                 (own_property ("."%char :: ext) MIME_TYPES))
  /\ getMimeType ext
     = (if bool_decide (ext ∈ Object_prototype) then Inherited ext
        else Str (lit "application/octet-stream")).
Proof.
  intros Hext. split.
  - unfold getMimeType, substring.
    rewrite (lastIndexOf_last _ _ _ Hext), Nat2Z.id, drop_app_length.
    destruct (own_property ("."%char :: ext) MIME_TYPES) as [mime|] eqn:Hown.
    + apply own_property_has_dot in Hown as [_ ->]. reflexivity.
    + rewrite bool_decide_eq_false_2 by apply extension_is_own_or_nothing.
      reflexivity.
  - unfold getMimeType, substring.
    rewrite (lastIndexOf_none _ _ Hext). simpl Z.to_nat. rewrite drop_0.
    destruct (own_property ext MIME_TYPES) as [mime|] eqn:Hown; [|reflexivity].
    apply own_property_has_dot in Hown as [Hdot _]. contradiction.
Qed.

(** ** The event stream's frames *)

Lemma frame_split (event json rest : str) :
  newline ∉ event -> newline ∉ json ->
  split newline (formatSSE event json ++ rest)
  = frame_lines (event, json) ++ split newline rest.
Proof.
  intros Hevent Hjson. unfold formatSSE, frame_lines. simpl fst. simpl snd.
  assert (newline ∉ lit "event: " ++ event) as Hline1.
  { apply not_elem_of_app. split; [|assumption]. simpl.
    repeat (apply not_elem_of_cons; split; [discriminate|]).
    apply not_elem_of_nil. }
  assert (newline ∉ lit "data: " ++ json) as Hline2.
  { apply not_elem_of_app. split; [|assumption]. simpl.
    repeat (apply not_elem_of_cons; split; [discriminate|]).
    apply not_elem_of_nil. }
  replace ((lit "event: " ++ event ++ newline :: lit "data: " ++ json
              ++ [newline; newline]) ++ rest)
    with ((lit "event: " ++ event) ++ newline
            :: (lit "data: " ++ json) ++ newline :: [] ++ newline :: rest).
  2:{ rewrite <- !app_assoc. simpl. rewrite <- !app_assoc. reflexivity. }
  rewrite (split_line _ _ Hline1), (split_line _ _ Hline2), split_line
    by apply not_elem_of_nil.
  reflexivity.
Qed.

(** X15. A stream of frames is unambiguous: when no event name and no
    serialised data holds a newline (what [JSON.stringify] returns holds
    none), the lines of the stream are, frame by frame, the event line, the
    data line and one blank line. *)
Theorem frames_split_into_lines (messages : list (str * str)) :
  Forall (fun m => (newline ∉ fst m) /\ (newline ∉ snd m)) messages ->
  split newline (frames messages) = concat (map frame_lines messages) ++ [[]].
Proof.
  induction 1 as [|[event json] messages [Hevent Hjson] _ IH]; [reflexivity|].
  unfold frames in *.
  change (concat (map (fun m => formatSSE (fst m) (snd m))
                      ((event, json) :: messages)))
    with (formatSSE event json
            ++ concat (map (fun m => formatSSE (fst m) (snd m)) messages)).
  rewrite frame_split, IH by assumption.
  change (concat (map frame_lines ((event, json) :: messages)))
    with (frame_lines (event, json) ++ concat (map frame_lines messages)).
  rewrite <- app_assoc. reflexivity.
Qed.

(** ** Requests *)

Lemma select_session_keeps (req : Request) (sv : Server) :
  let sv1 := select_session req sv in
  files (world sv1) = files (world sv)
  /\ pending (world sv1) = pending (world sv)
  /\ log (world sv1) = log (world sv)
  /\ interval (watcher (world sv1)) = interval (watcher (world sv))
  /\ subscribers (watcher (world sv1)) = subscribers (watcher (world sv))
  /\ closures sv1 = closures sv.
Proof.
  unfold select_session. destruct (requested_session req) as [session|]; [|tauto].
  destruct (truthy session
            && negb (bool_decide (Some session
                                  = getCurrentSessionId (watcher (world sv)))));
    simpl; tauto.
Qed.

(** X16. A request changes no file, starts and completes no read, calls no
    subscriber and neither stops nor starts the timer, and it takes no
    subscriber away; what it can change is the session the watcher is on
    and, for an event stream, the subscribers, by one. A request with
    another method than GET changes nothing at all and is answered 404. *)
Theorem handleRequest_leaves_the_logs (req : Request) (sv sv' : Server)
    (response : Response) :
  handleRequest req sv = Ok (response, sv') ->
  files (world sv') = files (world sv)
  /\ pending (world sv') = pending (world sv)
  /\ log (world sv') = log (world sv)
  /\ interval (watcher (world sv')) = interval (watcher (world sv))
  /\ (forall c, c ∈ subscribers (watcher (world sv)) ->
                c ∈ subscribers (watcher (world sv')))
  /\ length (subscribers (watcher (world sv')))
     <= S (length (subscribers (watcher (world sv))))
  /\ (method req <> lit "GET" -> response = not_found /\ sv' = sv).
Proof.
  unfold handleRequest.
  destruct (select_session_keeps req sv)
    as (Hfiles & Hpending & Hlog & Hinterval & Hsubs & _).
  assert (forall w : World,
             files w = files (world sv) -> pending w = pending (world sv) ->
             log w = log (world sv) ->
             interval (watcher w) = interval (watcher (world sv)) ->
             subscribers (watcher w) = subscribers (watcher (world sv)) ->
             files w = files (world sv)
             /\ pending w = pending (world sv)
             /\ log w = log (world sv)
             /\ interval (watcher w) = interval (watcher (world sv))
             /\ (forall c, c ∈ subscribers (watcher (world sv)) ->
                           c ∈ subscribers (watcher w))
             /\ length (subscribers (watcher w))
                <= S (length (subscribers (watcher (world sv))))) as Hsame.
  { intros w ? ? ? ? Hw. rewrite Hw. repeat (split; [assumption|]).
    split; [auto|lia]. }
  destruct (bool_decide (method req = lit "GET")) eqn:Hget.
  2:{ rewrite !andb_false_r. intros [= <- <-].
      destruct (Hsame (world sv)) as (? & ? & ? & ? & ? & ?); auto 10. }
  apply bool_decide_eq_true in Hget.
  rewrite !andb_true_r.
  repeat match goal with
         | |- context [if ?b then _ else _] => destruct b
         end.
  - intros [= <- <-].
    destruct (Hsame (world sv)) as (? & ? & ? & ? & ? & ?); auto.
    repeat (split; [assumption|]). tauto.
  - intros [= <- <-].
    destruct (Hsame (world sv)) as (? & ? & ? & ? & ? & ?); auto.
    repeat (split; [assumption|]). tauto.
  - unfold handleSSE. rewrite getAllEntries_bytes. simpl. intros [= <- <-]. simpl.
    rewrite Hsubs.
    split; [exact Hfiles|]. split; [exact Hpending|]. split; [exact Hlog|].
    split; [exact Hinterval|]. unfold Set_add.
    destruct (decide _).
    + split; [auto|]. split; [lia|tauto].
    + split; [intros c Hc; apply elem_of_app; auto|].
      split; [rewrite length_app; simpl; lia|tauto].
  - unfold handleSessionsList.
    destruct (listSessions (files (world sv))); simpl; [|discriminate].
    intros [= <- <-].
    destruct (Hsame (world sv)) as (? & ? & ? & ? & ? & ?); auto.
    repeat (split; [assumption|]). tauto.
  - rewrite getAllEntries_bytes. simpl. intros [= <- <-].
    destruct (Hsame (world (select_session req sv))) as (? & ? & ? & ? & ? & ?);
      auto.
    repeat (split; [assumption|]). tauto.
  - intros [= <- <-].
    destruct (Hsame (world sv)) as (? & ? & ? & ? & ? & ?); auto.
    repeat (split; [assumption|]). tauto.
Qed.

Lemma replace_at_head (pat rest : str) :
  replace pat [] (pat ++ rest) = rest.
Proof.
  destruct (pat ++ rest) as [|c s] eqn:Hs.
  - destruct pat; [destruct rest; [reflexivity|discriminate]|discriminate].
  - rewrite <- Hs. clear c s Hs.
    destruct pat as [|p pat]; [destruct rest; reflexivity|].
    change (replace (p :: pat) [] ((p :: pat) ++ rest))
      with (if startsWith ((p :: pat) ++ rest) (p :: pat)
            then [] ++ drop (length (p :: pat)) ((p :: pat) ++ rest)
            else p :: replace (p :: pat) [] (pat ++ rest)).
    rewrite startsWith_app, drop_app_length. reflexivity.
Qed.

Lemma split_at (sep : ascii) (piece rest : str) :
  sep ∉ piece -> split sep (piece ++ sep :: rest) = piece :: split sep rest.
Proof.
  induction piece as [|c piece IH]; intros Hsep; simpl.
  - destruct (decide (sep = sep)); [reflexivity|congruence].
  - apply not_elem_of_cons in Hsep as [Hc Hpiece].
    destruct (decide (c = sep)) as [->|_]; [congruence|].
    rewrite (IH Hpiece). reflexivity.
Qed.

(** X17. The styles route serves from under [STYLES_DIR]: GET /styles/rest
    is answered with the file at the path [STYLES_DIR], a slash and rest,
    under the content type of its extension, when there is a regular file
    of that name, and 404 when there is nothing; the state of the server
    stays as it is. The route itself checks nothing about rest: what keeps
    the path under [STYLES_DIR] is that the URL parser has resolved the dot
    segments of [url.pathname], so that no segment of rest is [..]. *)
Theorem styles_route_serves_under_STYLES_DIR (sv : Server) (rest : str)
    (param : option str) :
  let req := {| method := lit "GET"; pathname := lit "/styles/" ++ rest;
                session_param := param |} in
  let file := STYLES_DIR ++ lit "/" ++ rest in
  dot_segments_resolved (pathname req) ->
  handleRequest req sv = Ok (serveFile (files (world sv)) file, sv)
  /\ (lit ".." ∉ split slash rest)
  /\ (forall bytes, files (world sv) !! file = Some (File bytes) ->
        serveFile (files (world sv)) file
        = {| status := 200; headers := [(lit "Content-Type", getMimeType file)];
             body := FileBody file |})
  /\ (files (world sv) !! file = None ->
      serveFile (files (world sv)) file = not_found).
Proof.
  intros req file Hresolved. split; [|split; [|split]].
  - unfold handleRequest.
    assert (bool_decide (pathname req = lit "/") = false) as ->
      by (apply bool_decide_eq_false_2; discriminate).
    assert (startsWith (pathname req) (lit "/styles/") = true) as ->
      by apply startsWith_app.
    assert (bool_decide (method req = lit "GET") = true) as ->
      by (apply bool_decide_eq_true_2; reflexivity).
    assert (replace (lit "/styles") [] (pathname req) = lit "/" ++ rest) as ->
      by apply (replace_at_head (lit "/styles") (lit "/" ++ rest)).
    reflexivity.
  - unfold dot_segments_resolved in Hresolved.
    change (pathname req) with ([] ++ slash :: (lit "styles" ++ slash :: rest))
      in Hresolved.
    rewrite split_at, split_at in Hresolved.
    + apply not_elem_of_cons in Hresolved as [_ Hresolved].
      apply not_elem_of_cons in Hresolved as [_ Hresolved]. exact Hresolved.
    + simpl. repeat (apply not_elem_of_cons; split; [discriminate|]).
      apply not_elem_of_nil.
    + apply not_elem_of_nil.
  - intros bytes Hfile. unfold serveFile, Bun_file_exists. rewrite Hfile.
    reflexivity.
  - intros Hfile. unfold serveFile, Bun_file_exists. rewrite Hfile. reflexivity.
Qed.

Lemma select_session_param (sv : Server) (pathname id : str) :
  truthy id = true ->
  let req := {| method := lit "GET"; pathname := pathname;
                session_param := Some id |} in
  select_session req sv
  = if bool_decide (Some id = getCurrentSessionId (watcher (world sv))) then sv
    else {| world := step (CallSetSession id) (world sv);
            closures := closures sv |}.
Proof.
  intros Hid req. unfold select_session, requested_session. simpl.
  rewrite Hid. simpl. destruct (bool_decide _); rewrite ?Hid; reflexivity.
Qed.

(** X18. GET /api/entries?session=id answers with the decoding of the whole
    file of that session and leaves the one watcher of the server on it,
    for every stream that is open, with the subscribers it had. When the
    watcher was on another session, [lastSize] is then the size
    [Bun.file] reports for the path, which for a regular file is the
    number of its bytes; when it was on this one, nothing changes, so that
    asking again gives the same answer and does not move [lastSize]. *)
Theorem api_entries_switches_the_watcher (sv : Server) (id : str) :
  truthy id = true ->
  truthy (getSessionLogPath id) = true ->
  let req := {| method := lit "GET"; pathname := lit "/api/entries";
                session_param := Some id |} in
  let bytes := file_bytes (files (world sv)) (getSessionLogPath id) in
  exists (response : Response) (sv1 : Server),
    handleRequest req sv = Ok (response, sv1)
    /\ status response = 200
    /\ body response = Text (stringify_entries (parseLines bytes))
    /\ handleRequest req sv1 = Ok (response, sv1)
    /\ getCurrentSessionId (watcher (world sv1)) = Some id
    /\ subscribers (watcher (world sv1)) = subscribers (watcher (world sv))
    /\ (getCurrentSessionId (watcher (world sv)) <> Some id ->
        lastSize (watcher (world sv1))
        = getFileSize (files (world sv)) (watcher (world sv1))
        /\ (is_dir (files (world sv)) (getSessionLogPath id) = false ->
            lastSize (watcher (world sv1)) = length bytes))
    /\ (getCurrentSessionId (watcher (world sv)) = Some id -> sv1 = sv).
Proof.
  intros Hid Hpath req bytes.
  assert (forall sv0 : Server,
             handleRequest req sv0
             = (let sv1 := select_session req sv0 in
                entries ← getAllEntries (files (world sv1)) (watcher (world sv1));
                Ok ({| status := 200;
                       headers := [ (lit "Content-Type",
                                     Str (lit "application/json"));
                                    (lit "Access-Control-Allow-Origin",
                                     Str (lit "*")) ];
                       body := Text (stringify_entries entries) |}, sv1)))
    as Hroute by reflexivity.
  assert (forall sv0 : Server,
             getCurrentSessionId (watcher (world sv0)) = Some id ->
             files (world sv0) = files (world sv) ->
             getAllEntries (files (world sv0)) (watcher (world sv0))
             = Ok (parseLines bytes)) as Hsnapshot.
  { intros sv0 Hon Hfiles. rewrite getAllEntries_bytes. unfold getLogFilePath.
    unfold getCurrentSessionId in Hon. rewrite Hon, Hid, Hpath, Hfiles.
    reflexivity. }
  assert (forall sv0 : Server,
             getCurrentSessionId (watcher (world sv0)) = Some id ->
             select_session req sv0 = sv0) as Hstay.
  { intros sv0 Hon. unfold req. rewrite select_session_param by assumption.
    rewrite bool_decide_eq_true_2 by congruence. reflexivity. }
  destruct (decide (getCurrentSessionId (watcher (world sv)) = Some id))
    as [Hon|Hoff].
  - eexists _, sv. rewrite !Hroute. cbv zeta. rewrite (Hstay sv Hon).
    rewrite (Hsnapshot sv Hon eq_refl). simpl.
    repeat (split; [reflexivity|]). split; [exact Hon|].
    split; [reflexivity|]. split; [contradiction|reflexivity].
  - set (sv1 := {| world := step (CallSetSession id) (world sv);
                   closures := closures sv |}).
    assert (select_session req sv = sv1) as Hswitch.
    { unfold req. rewrite select_session_param by assumption.
      rewrite bool_decide_eq_false_2 by congruence. reflexivity. }
    assert (getCurrentSessionId (watcher (world sv1)) = Some id) as Hon
      by reflexivity.
    eexists _, sv1. rewrite !Hroute. cbv zeta. rewrite Hswitch, (Hstay sv1 Hon).
    rewrite (Hsnapshot sv1 Hon eq_refl). simpl.
    repeat (split; [reflexivity|]).
    split; [|contradiction]. intros _.
    assert (getLogFilePath (set_currentSessionId (Some id) (watcher (world sv)))
            = Some (getSessionLogPath id)) as Hlog.
    { unfold getLogFilePath. simpl. rewrite Hid. reflexivity. }
    split; [reflexivity|].
    intros Hreg. unfold setSession. simpl. unfold bytes.
    apply getFileSize_bytes; assumption.
Qed.


(** ** The server over its life *)

Lemma delivered_never_invoked (c : EntryCallback) (l : list (Event LogEntry)) :
  Forall (fun ce => fst ce <> c) (invocations l) -> delivered c l = [].
Proof.
  induction l as [|ev l IH]; [reflexivity|].
  destruct ev as [r|c' entry|c' entry]; simpl; try exact IH.
  intros Hall. apply Forall_cons in Hall as [Hne Hall]. simpl in Hne.
  destruct (decide (c' = c)); [contradiction|]. apply IH, Hall.
Qed.

Lemma invocations_resolve (k : nat) (wd : World) :
  exists called,
    invocations (log (resolve k wd)) = invocations (log wd) ++ called
    /\ Forall (fun ce => fst ce ∈ subscribers (watcher wd)) called.
Proof.
  unfold resolve. destruct (pending wd !! k) as [r|].
  2:{ exists []. rewrite app_nil_r. auto. }
  destruct (files wd !! read_path r) as [[bytes|names]|]; simpl;
    [|exists []; rewrite app_nil_r; auto..].
  rewrite invocations_deliver. eexists. split; [reflexivity|].
  apply Forall_forall. intros [c entry] Hin.
  apply list_elem_of_In, in_flat_map in Hin as (entry' & _ & Hin).
  apply in_map_iff in Hin as (c' & [= <- <-] & Hc).
  apply list_elem_of_In. exact Hc.
Qed.

Lemma tick_keeps_watching (wd : World) :
  interval (watcher (tick wd)) = interval (watcher wd)
  /\ subscribers (watcher (tick wd)) = subscribers (watcher wd)
  /\ invocations (log (tick wd)) = invocations (log wd).
Proof.
  destruct (interval (watcher wd)) eqn:Hrun.
  - destruct (tick_cases wd Hrun) as [[_ (path & _ & _ & ->)]|[_ ->]]; simpl;
      rewrite ?invocations_app, ?app_nil_r; auto.
  - rewrite (tick_stopped wd Hrun). auto.
Qed.

Lemma handleRequest_effect (req : Request) (sv sv' : Server)
    (response : Response) :
  handleRequest req sv = Ok (response, sv') ->
  log (world sv') = log (world sv)
  /\ interval (watcher (world sv')) = interval (watcher (world sv))
  /\ ((subscribers (watcher (world sv')) = subscribers (watcher (world sv))
       /\ closures sv' = closures sv)
      \/ (subscribers (watcher (world sv'))
          = Set_add (closures sv) (subscribers (watcher (world sv)))
          /\ closures sv' = S (closures sv))).
Proof.
  unfold handleRequest.
  destruct (select_session_keeps req sv)
    as (_ & _ & Hlog & Hinterval & Hsubs & Hclosures).
  repeat match goal with
         | |- context [if ?b then _ else _] => destruct b
         end;
    try (intros [= <- <-]; auto).
  - unfold handleSSE. rewrite getAllEntries_bytes. simpl. intros [= <- <-]. simpl.
    rewrite Hsubs, Hclosures. auto.
  - unfold handleSessionsList.
    destruct (listSessions (files (world sv))); simpl; [|discriminate].
    intros [= <- <-]. auto.
  - rewrite getAllEntries_bytes. simpl. intros [= <- <-].
    rewrite Hclosures. auto.
Qed.

Lemma serve_running (fs : FileSystem) :
  interval (watcher (world (serve fs))) = true
  /\ subscribers (watcher (world (serve fs))) = []
  /\ log (world (serve fs)) = [].
Proof.
  unfold serve. destruct server_currentSessionId as [id|]; [|auto].
  destruct (truthy id); auto.
Qed.

(** X20. At every moment of the server's life the watcher is running, every
    subscriber is the closure of a stream that was opened, no two streams
    share one, only such closures have ever been called, and the closure of
    the next stream has not been called yet: a stream starts with its
    snapshot frame and carries no entry emitted before it was opened. *)
Theorem server_keeps_streams_apart (fs : FileSystem) (history : list Happening) :
  let sv := serving fs history in
  interval (watcher (world sv)) = true
  /\ NoDup (subscribers (watcher (world sv)))
  /\ Forall (fun c => c < closures sv) (subscribers (watcher (world sv)))
  /\ Forall (fun ce => fst ce < closures sv) (invocations (log (world sv)))
  /\ entry_frames (closures sv) (log (world sv)) = [].
Proof.
  intros sv.
  assert (interval (watcher (world sv)) = true
          /\ NoDup (subscribers (watcher (world sv)))
          /\ Forall (fun c => c < closures sv) (subscribers (watcher (world sv)))
          /\ Forall (fun ce => fst ce < closures sv)
                    (invocations (log (world sv))))
    as (Hrun & Hnodup & Hsubs & Hcalled).
  { unfold sv, serving. clear sv.
    induction history as [|h history IH] using rev_ind.
    { destruct (serve_running fs) as (Hrun & Hsubs & Hlog).
      change (foldl (fun sv h => happen h sv) (serve fs) []) with (serve fs).
      rewrite Hrun, Hsubs, Hlog. repeat split; constructor. }
    rewrite foldl_app. simpl foldl.
    set (sv := foldl (fun sv h => happen h sv) (serve fs) history) in *.
    destruct IH as (Hrun & Hnodup & Hsubs & Hcalled).
    destruct h as [req|c|path bytes|path content| |k]; simpl happen.
    - destruct (handleRequest req sv) as [[response sv']|e] eqn:Hreq; [|auto].
      apply handleRequest_effect in Hreq
        as (Hlog & Hinterval & [[Hsame Hcl]|[Hadded Hcl]]).
      + rewrite Hlog, Hinterval, Hsame, Hcl. auto.
      + rewrite Hlog, Hinterval, Hadded, Hcl.
        split; [exact Hrun|]. split; [apply Set_add_NoDup, Hnodup|].
        split.
        * unfold Set_add. destruct (decide _).
          -- eapply Forall_impl; [exact Hsubs|]. simpl. lia.
          -- apply Forall_app. split; [|repeat constructor].
             eapply Forall_impl; [exact Hsubs|]. simpl. lia.
        * eapply Forall_impl; [exact Hcalled|]. simpl. lia.
    - simpl. split; [exact Hrun|].
      split; [apply NoDup_filter, Hnodup|].
      split; [|exact Hcalled].
      rewrite Forall_forall in Hsubs. apply Forall_forall.
      intros c' Hc'. apply list_elem_of_filter in Hc' as [_ Hc']. auto.
    - simpl. auto.
    - simpl. auto.
    - simpl. destruct (tick_keeps_watching (world sv)) as (-> & -> & ->). auto.
    - simpl. rewrite resolve_watcher.
      split; [exact Hrun|]. split; [exact Hnodup|]. split; [exact Hsubs|].
      destruct (invocations_resolve k (world sv)) as (called & -> & Hin).
      apply Forall_app. split; [exact Hcalled|].
      rewrite Forall_forall in Hin. rewrite Forall_forall in Hsubs.
      apply Forall_forall.
      intros ce Hce. apply Hsubs, Hin, Hce. }
  repeat (split; [assumption|]).
  unfold entry_frames. rewrite delivered_never_invoked; [reflexivity|].
  eapply Forall_impl; [exact Hcalled|]. intros [c entry]. simpl. lia.
Qed.

End ServerFacts.

(** * The properties on concrete runs *)

Ltac by_evaluation := apply (bool_decide_unpack _); vm_compute; exact I.

Section Runs.
#[local] Existing Instance quiet_runtime.

Example split_trailing : split newline (lit "a" ++ [newline]) = [lit "a"; []].
Proof. reflexivity. Qed.

Example split_empty : split newline [] = [[]].
Proof. reflexivity. Qed.

Example trim_both_ends :
  trim (newline :: lit "  a b " ++ [ascii_of_nat 194; ascii_of_nat 160]) = lit "a b".
Proof. reflexivity. Qed.

Example replace_first_only :
  replace (lit ".txt") [] (lit "a.txtb.txt") = lit "ab.txt".
Proof. reflexivity. Qed.

Example json_lite_object :
  json_lite (lit "{" ++ quoted "timestamp" ++ lit ":" ++ quoted "t1" ++ lit ","
             ++ quoted "data" ++ lit ":{}, " ++ quoted "n" ++ lit ": [1,-20, null] }")
  = Some (JObject [(lit "timestamp", JString (lit "t1"));
                   (lit "data", JObject []);
                   (lit "n", JArray [JNumber (lit "1"); JNumber (lit "-20"); JNull])]).
Proof. vm_compute. reflexivity. Qed.

Example json_lite_rejects_fragments :
  json_lite (lit "[1") = None /\ json_lite (lit ",2]") = None
  /\ json_lite [] = None /\ json_lite (lit "  ") = None
  /\ json_lite (lit "01") = None /\ json_lite (lit "{} x") = None.
Proof. vm_compute. repeat split. Qed.

(** The specification's scenario: a file with exactly one line. *)
Example one_line_file :
  let line := lit "{" ++ quoted "timestamp" ++ lit ":" ++ quoted "t1" ++ lit ","
              ++ quoted "event" ++ lit ":" ++ quoted "SessionStart" ++ lit ","
              ++ quoted "session_id" ++ lit ":" ++ quoted "s1" ++ lit ","
              ++ quoted "data" ++ lit ":{}}" in
  let fs : FileSystem :=
    <[ lit "logs" := Dir [lit "s1.txt"] ]> {[ s1_path := File (line ++ [newline]) ]} in
  getAllEntries fs (s1_watcher 0)
  = Ok [JObject [(lit "timestamp", JString (lit "t1"));
                 (lit "event", JString (lit "SessionStart"));
                 (lit "session_id", JString (lit "s1"));
                 (lit "data", JObject [])]]
  /\ (listSessions fs
      = Ok [{| session_id := lit "s1"; file_path := s1_path;
               first_entry := Stamp (lit "t1"); last_entry := Stamp (lit "t1");
               entry_count := 1; size_bytes := length line + 1 |}]).
Proof. vm_compute. split; reflexivity. Qed.

(** A subscriber that throws does not stop the one after it. *)
Example faulty_subscriber :
  emit (H := faulty_runtime)
       {| lastSize := 0; interval := true; subscribers := [1; 2];
          currentSessionId := None |} JNull []
  = [Invoked 1 JNull; ConsoleError 1 JNull; Invoked 2 JNull].
Proof. reflexivity. Qed.

(** The watcher of [fresh_world] is attached to the (absent) file of s1. *)
Lemma fresh_world_attached : attached s1_path [] fresh_world.
Proof.
  split; try reflexivity.
  apply (bool_decide_unpack _). vm_compute. exact I.
Defined.



(** C2 as the code has it, on the line [1,2] arriving in two pieces: the
    first piece is consumed, and neither piece yields an entry. *)
Lemma partial_line_decoded_separately_witness :
  attached s1_path [] fresh_world
  /\ 7 ∈ subscribers (watcher fresh_world)
  /\ lit "[1" <> []
  /\ (newline ∉ lit "[1")
  /\ lit ",2]" ++ [newline] <> []
  /\ lastSize (watcher (run [Append s1_path (lit "[1"); Tick; Resolve 0] fresh_world))
     = 2
  /\ delivered 7 (log (run [Append s1_path (lit "[1"); Tick; Resolve 0] fresh_world))
     = []
  /\ delivered 7 (log (run [Append s1_path (lit ",2]" ++ [newline]); Tick; Resolve 0]
                         (run [Append s1_path (lit "[1"); Tick; Resolve 0]
                              fresh_world)))
     = [].
Proof.
  assert (7 ∈ subscribers (watcher fresh_world)) as Hsub by left.
  assert (lit "[1" <> []) as Hpartial by discriminate.
  assert (newline ∉ lit "[1") as Hnl.
  { apply (bool_decide_unpack _). vm_compute. exact I. }
  assert (lit ",2]" ++ [newline] <> []) as Hrest by discriminate.
  split; [exact fresh_world_attached|].
  split; [exact Hsub|].
  split; [exact Hpartial|].
  split; [exact Hnl|].
  split; [exact Hrest|].
  exact (partial_line_decoded_separately s1_path [] fresh_world (lit "[1")
           (lit ",2]" ++ [newline]) 7 fresh_world_attached Hsub Hpartial Hnl Hrest).
Defined.

(** C2 as stated fails: the line [1,2] arrives as "[1" and then ",2]" with
    its newline; neither piece decodes, and the subscriber is never called
    with the line. *)
Lemma partial_line_is_lost :
  attached s1_path [] fresh_world
  /\ well_formed (lit "[1,2]") = true
  /\ ~ partial_line_safe s1_path fresh_world (lit "[1") (lit ",2]") 7.
Proof.
  split; [exact fresh_world_attached|].
  split; [reflexivity|].
  intros [_ (entry & _ & Hdelivered)].
  vm_compute in Hdelivered. discriminate.
Qed.

(** C3 as the code has it, on a watcher with the read of the first line out
    and the second line written since: the tick starts the read of the
    second line behind the first and calls nobody; the first line is
    emitted, to both subscribers, when its read completes. *)
Lemma emissions_follow_the_read_witness :
  interval (watcher reading_and_behind) = true
  /\ getLogFilePath (watcher reading_and_behind) = Some s1_path
  /\ truthy s1_path = true
  /\ lastSize (watcher reading_and_behind)
     < getFileSize (files reading_and_behind) (watcher reading_and_behind)
  /\ pending reading_and_behind !! 0
     = Some {| read_path := s1_path; read_start := 0;
               read_stop := length (encode_lines [line_a]) |}
  /\ files reading_and_behind !! s1_path
     = Some (File (encode_lines [line_a; line_b]))
  /\ pending (tick reading_and_behind)
     = [{| read_path := s1_path; read_start := 0;
           read_stop := length (encode_lines [line_a]) |};
        {| read_path := s1_path; read_start := length (encode_lines [line_a]);
           read_stop := length (encode_lines [line_a; line_b]) |}]
  /\ lastSize (watcher (tick reading_and_behind))
     = length (encode_lines [line_a; line_b])
  /\ invocations (log (tick reading_and_behind)) = []
  /\ invocations (log (resolve 0 reading_and_behind))
     = [(7, JObject [(lit "timestamp", JString (lit "t1"))]);
        (8, JObject [(lit "timestamp", JString (lit "t1"))])].
Proof.
  assert (lastSize (watcher reading_and_behind)
          < getFileSize (files reading_and_behind) (watcher reading_and_behind))
    as Hgrown.
  { vm_compute. lia. }
  assert (files reading_and_behind !! s1_path
          = Some (File (encode_lines [line_a; line_b]))) as Hfile.
  { vm_compute. reflexivity. }
  destruct (emissions_follow_the_read reading_and_behind)
    as (Hquiet & Hstarts & Hemits).
  destruct (Hstarts s1_path eq_refl eq_refl eq_refl Hgrown)
    as (Hpending & _ & Hwatcher).
  destruct (Hemits 0 _ _ eq_refl Hfile) as (_ & _ & _ & Hcalled).
  split; [reflexivity|]. split; [reflexivity|]. split; [reflexivity|].
  split; [exact Hgrown|]. split; [reflexivity|]. split; [exact Hfile|].
  split; [rewrite Hpending; vm_compute; reflexivity|].
  split; [rewrite Hwatcher; vm_compute; reflexivity|].
  split; [rewrite Hquiet; reflexivity|].
  rewrite Hcalled. vm_compute. reflexivity.
Defined.

(** C3 as stated fails: two appends, each followed by a tick; the second
    tick runs while the read of the first is still out and no entry of the
    first has been emitted. The entry of the first tick is emitted when its
    read completes, after the second tick. *)
Lemma ticks_may_overlap :
  attached s1_path [] fresh_world
  /\ ticks_start_settled
       [Append s1_path (encode_lines [line_a]); Tick;
        Append s1_path (encode_lines [line_b]); Tick] fresh_world = false
  /\ invocations
       (log (run [Append s1_path (encode_lines [line_a]); Tick;
                  Append s1_path (encode_lines [line_b]); Tick] fresh_world)) = []
  /\ invocations
       (log (run [Append s1_path (encode_lines [line_a]); Tick;
                  Append s1_path (encode_lines [line_b]); Tick; Resolve 0]
                 fresh_world))
     = [(7, JObject [(lit "timestamp", JString (lit "t1"))]);
        (8, JObject [(lit "timestamp", JString (lit "t1"))])].
Proof.
  split; [exact fresh_world_attached|].
  repeat split; vm_compute; reflexivity.
Qed.

(** C6 as stated fails: a directory entry named a.txt that is itself a
    directory makes [readFileSync] throw inside [listSessions], and nothing
    catches it. *)
Lemma listSessions_propagates :
  listSessions unreadable_entry = Throw EISDIR /\ ~ never_propagates.
Proof.
  assert (listSessions unreadable_entry = Throw EISDIR) as Hthrow.
  { vm_compute. reflexivity. }
  split; [exact Hthrow|].
  intros Hnever.
  destruct (Hnever unreadable_entry new_LogFileWatcher) as [_ [sessions Hok]].
  rewrite Hthrow in Hok. discriminate.
Qed.

(** C6 as the code has it, on the three sessions of the listing example
    and on the two log files with numbers for timestamps: the first are
    listed, the second make the sort throw. *)
Lemma entry_points_on_missing_files_witness :
  three_sessions !! LOGS_DIR
  = Some (Dir [lit "a.txt"; lit "b.txt"; lit "c.txt"; lit ".gitkeep"])
  /\ log_files_regular three_sessions
       [lit "a.txt"; lit "b.txt"; lit "c.txt"; lit ".gitkeep"]
  /\ Forall (fun t => is_string t = true)
            (last_entries three_sessions
               [lit "a.txt"; lit "b.txt"; lit "c.txt"; lit ".gitkeep"])
  /\ (exists sessions, listSessions three_sessions = Ok sessions)
  /\ numeric_stamps !! LOGS_DIR = Some (Dir [lit "a.txt"; lit "b.txt"])
  /\ log_files_regular numeric_stamps [lit "a.txt"; lit "b.txt"]
  /\ Forall (fun t => is_string t = false)
            (last_entries numeric_stamps [lit "a.txt"; lit "b.txt"])
  /\ listSessions numeric_stamps = Throw TypeError
  /\ getAllEntries (files fresh_world) (watcher fresh_world) = Ok [].
Proof.
  assert (three_sessions !! LOGS_DIR
          = Some (Dir [lit "a.txt"; lit "b.txt"; lit "c.txt"; lit ".gitkeep"]))
    as Hdir.
  { vm_compute. reflexivity. }
  assert (log_files_regular three_sessions
            [lit "a.txt"; lit "b.txt"; lit "c.txt"; lit ".gitkeep"]) as Hregular.
  { repeat constructor; intros Hlog; try discriminate Hlog;
      eexists; vm_compute; reflexivity. }
  assert (Forall (fun t => is_string t = true)
                 (last_entries three_sessions
                    [lit "a.txt"; lit "b.txt"; lit "c.txt"; lit ".gitkeep"]))
    as Hstrings.
  { apply (bool_decide_unpack _). vm_compute. exact I. }
  assert (numeric_stamps !! LOGS_DIR = Some (Dir [lit "a.txt"; lit "b.txt"]))
    as Hdir'.
  { vm_compute. reflexivity. }
  assert (log_files_regular numeric_stamps [lit "a.txt"; lit "b.txt"])
    as Hregular'.
  { repeat constructor; intros Hlog; eexists; vm_compute; reflexivity. }
  assert (Forall (fun t => is_string t = false)
                 (last_entries numeric_stamps [lit "a.txt"; lit "b.txt"]))
    as Hnumbers.
  { apply (bool_decide_unpack _). vm_compute. exact I. }
  destruct (entry_points_on_missing_files (files fresh_world) (watcher fresh_world))
    as (_ & _ & Habsent & _).
  destruct (entry_points_on_missing_files three_sessions new_LogFileWatcher)
    as (_ & _ & _ & _ & _ & Hlisted & _).
  destruct (entry_points_on_missing_files numeric_stamps new_LogFileWatcher)
    as (_ & _ & _ & _ & _ & _ & Hthrows).
  split; [exact Hdir|]. split; [exact Hregular|]. split; [exact Hstrings|].
  split; [exact (Hlisted _ Hdir Hregular (or_introl Hstrings))|].
  split; [exact Hdir'|]. split; [exact Hregular'|]. split; [exact Hnumbers|].
  split.
  - apply (Hthrows _ Hdir' Hregular'); [vm_compute; lia|exact Hnumbers].
  - apply (Habsent s1_path); reflexivity.
Defined.

(** C9 fails on the code: for the log file a.txtb.txt [listSessions]
    reports the session id ab.txt, which the extension does not complete to
    the file name. *)
Theorem session_id_drops_first_occurrence :
  endsWith (lit "a.txtb.txt") (lit ".txt") = true
  /\ (exists info, listSessions dotted_name = Ok [info]
                   /\ file_path info = lit "logs/a.txtb.txt"
                   /\ session_id info = lit "ab.txt"
                   /\ session_id info ++ lit ".txt" <> lit "a.txtb.txt")
  /\ ~ strips_extension dotted_name (lit "logs") (lit "a.txtb.txt").
Proof.
  split; [reflexivity|].
  split.
  - eexists. split; [vm_compute; reflexivity|].
    split; [reflexivity|]. split; [reflexivity|]. vm_compute. discriminate.
  - intros Hstrips.
    assert (exists info, sessionInfo dotted_name (lit "logs") (lit "a.txtb.txt") = Ok info
                         /\ session_id info = lit "ab.txt") as (info & Hinfo & Hid).
    { eexists. split; [vm_compute; reflexivity|reflexivity]. }
    specialize (Hstrips info Hinfo). rewrite Hid in Hstrips.
    vm_compute in Hstrips. discriminate.
Qed.

(** C4 as the code has it, on a file cut back from two lines to one with
    no read out, and then growing. *)
Lemma truncation_resets_baseline_witness :
  getLogFilePath (watcher truncated_world) = Some s1_path
  /\ truthy s1_path = true
  /\ interval (watcher truncated_world) = true
  /\ is_dir (files truncated_world) s1_path = false
  /\ length (file_bytes (files truncated_world) s1_path)
     < lastSize (watcher truncated_world)
  /\ pending truncated_world = []
  /\ NoDup (subscribers (watcher truncated_world))
  /\ log (tick truncated_world) = log truncated_world
  /\ pending (tick truncated_world) = pending truncated_world
  /\ lastSize (watcher (tick truncated_world)) = length (encode_lines [line_b])
  /\ exists (started done : list str) (unseen : str),
       concat (grown byte_run) = concat started ++ unseen
       /\ done ⊆+ started
       /\ forall c, c ∈ subscribers (watcher truncated_world) ->
            delivered c (log (run (map (growth_action s1_path) byte_run)
                                  (tick truncated_world)))
            = delivered c (log truncated_world)
              ++ concat (map (fun chunk => parseLines (Blob_text chunk)) done).
Proof.
  assert (length (file_bytes (files truncated_world) s1_path)
          < lastSize (watcher truncated_world)) as Hshrunk.
  { vm_compute. lia. }
  assert (is_dir (files truncated_world) s1_path = false) as Hreg.
  { vm_compute. reflexivity. }
  assert (pending truncated_world = []) as Hsettled.
  { vm_compute. reflexivity. }
  assert (NoDup (subscribers (watcher truncated_world))) as Hnodup.
  { apply (bool_decide_unpack _). vm_compute. exact I. }
  split; [reflexivity|]. split; [reflexivity|]. split; [reflexivity|].
  split; [exact Hreg|]. split; [exact Hshrunk|].
  split; [exact Hsettled|]. split; [exact Hnodup|].
  destruct (truncation_resets_baseline truncated_world s1_path byte_run
              eq_refl eq_refl eq_refl Hreg Hshrunk)
    as (Hlog & Hpending & Hsize & Hgrowth).
  split; [exact Hlog|]. split; [exact Hpending|]. split; [exact Hsize|].
  destruct (Hgrowth Hsettled Hnodup)
    as (started & done & unseen & Hcut & Hsub & _ & _ & _ & Hdelivered).
  exists started, done, unseen. auto.
Defined.

(** C4 as stated fails: the file is emptied while the read of its one line
    is out; the tick sees it shorter and resets [lastSize]; a line is
    written, and the next tick starts a read of it. Then the old read
    completes, on the bytes that are at its offsets now, and the new one:
    the subscriber gets the new line twice. *)
Lemma stale_read_replays_new_bytes :
  getLogFilePath (watcher cut_under_read) = Some s1_path
  /\ interval (watcher cut_under_read) = true
  /\ length (file_bytes (files cut_under_read) s1_path)
     < lastSize (watcher cut_under_read)
  /\ well_formed line_c = true
  /\ pending (flush [0; 0] (step (Append s1_path (encode_lines [line_c]))
                                 (tick cut_under_read))) = []
  /\ delivered 7 (log (flush [0; 0] (step (Append s1_path (encode_lines [line_c]))
                                          (tick cut_under_read))))
     = [JObject []; JObject []]
  /\ ~ resumes_from_new_baseline s1_path cut_under_read [line_c] [0; 0] 7.
Proof.
  assert (pending (flush [0; 0] (step (Append s1_path (encode_lines [line_c]))
                                      (tick cut_under_read))) = []) as Hcaught.
  { vm_compute. reflexivity. }
  split; [reflexivity|]. split; [reflexivity|].
  split; [vm_compute; lia|].
  split; [reflexivity|].
  split; [exact Hcaught|].
  split; [vm_compute; reflexivity|].
  intros Hresumes. specialize (Hresumes Hcaught).
  vm_compute in Hresumes. discriminate.
Qed.






(** ** More of the watcher on concrete runs *)

Example mixed_lines_decoded :
  omap decodes mixed_lines
  = [JObject [(lit "timestamp", JString (lit "t1"))];
     JArray [JNumber (lit "1"); JNumber (lit "2")]].
Proof. vm_compute. reflexivity. Qed.

(** X1 on four lines of which the second does not decode and the third is
    blank. *)
Lemma parseLines_skips_undecodable_witness :
  Forall (fun line => newline ∉ line) mixed_lines
  /\ parseLines (encode_lines mixed_lines) = omap decodes mixed_lines
  /\ parseLines (Array_join newline mixed_lines) = omap decodes mixed_lines.
Proof.
  assert (Forall (fun line => newline ∉ line) mixed_lines) as Hlines
    by by_evaluation.
  exact (conj Hlines (parseLines_skips_undecodable mixed_lines Hlines)).
Defined.

(** X3 on a run with a tick, a subscription, the read completing and
    [stop]. *)
Lemma snapshot_independent_of_polling_witness :
  forallb keeps_files_and_session [Tick; CallSubscribe 9; Resolve 0; CallStop] = true
  /\ getAllEntries
       (files (run [Tick; CallSubscribe 9; Resolve 0; CallStop] unpolled_world))
       (watcher (run [Tick; CallSubscribe 9; Resolve 0; CallStop] unpolled_world))
     = getAllEntries (files unpolled_world) (watcher unpolled_world).
Proof.
  assert (forallb keeps_files_and_session [Tick; CallSubscribe 9; Resolve 0; CallStop]
          = true) as Hkeeps by reflexivity.
  exact (conj Hkeeps
           (proj1 (snapshot_independent_of_polling unpolled_world
                     [Tick; CallSubscribe 9; Resolve 0; CallStop] Hkeeps))).
Defined.

(** X4 on the run in which the read of the second line completes first. *)
Lemma snapshot_then_live_covers_file_witness :
  attached s1_path [] fresh_world
  /\ at_line_end []
  /\ Forall (Forall (fun line => well_formed line = true)) (grown overtaking_run)
  /\ 7 ∈ subscribers (watcher fresh_world)
  /\ pending (flush [0] (run (map (growth_action s1_path)
                                  (map (grow_with encode_lines) overtaking_run))
                             fresh_world)) = []
  /\ exists before since live,
       getAllEntries (files fresh_world) (watcher fresh_world) = Ok before
       /\ getAllEntries
            (files (flush [0] (run (map (growth_action s1_path)
                                        (map (grow_with encode_lines)
                                             overtaking_run))
                                   fresh_world)))
            (watcher (flush [0] (run (map (growth_action s1_path)
                                          (map (grow_with encode_lines)
                                               overtaking_run))
                                     fresh_world)))
          = Ok (before ++ since)
       /\ delivered 7 (log (flush [0] (run (map (growth_action s1_path)
                                              (map (grow_with encode_lines)
                                                   overtaking_run))
                                         fresh_world)))
          = delivered 7 (log fresh_world) ++ live
       /\ live ≡ₚ since.
Proof.
  assert (at_line_end []) as Hend by (left; reflexivity).
  assert (Forall (Forall (fun line => well_formed line = true))
                 (grown overtaking_run))
    as Hlines by repeat constructor.
  assert (7 ∈ subscribers (watcher fresh_world)) as Hsub by left.
  assert (pending (flush [0] (run (map (growth_action s1_path)
                                       (map (grow_with encode_lines)
                                            overtaking_run))
                                  fresh_world)) = []) as Hcaught.
  { vm_compute. reflexivity. }
  split; [exact fresh_world_attached|].
  split; [exact Hend|]. split; [exact Hlines|]. split; [exact Hsub|].
  split; [exact Hcaught|].
  destruct (snapshot_then_live_covers_file s1_path [] fresh_world overtaking_run
              [0] 7 fresh_world_attached Hend Hlines Hsub Hcaught)
    as (before & since & live & Hbefore & Hafter & Hlive & Hperm & _).
  exists before, since, live. auto.
Defined.

(** X5 on a tick that finds one new line. *)
Lemma tick_tracks_size_witness :
  interval (watcher unpolled_world) = true
  /\ lastSize (watcher (tick unpolled_world))
     = getFileSize (files unpolled_world) (watcher unpolled_world).
Proof.
  assert (interval (watcher unpolled_world) = true) as Hrun by reflexivity.
  exact (conj Hrun (proj1 (tick_tracks_size unpolled_world Hrun))).
Defined.


(** X8 on a line written while the watcher is stopped, over three periods
    of the timer. *)
Lemma stop_then_start_skips_witness :
  attached s1_path [] fresh_world
  /\ attached s1_path ([] ++ encode_lines [line_a])
       (step CallStart
          (run (CallStop :: Append s1_path (encode_lines [line_a])
                  :: repeat Tick 3) fresh_world)).
Proof.
  split; [exact fresh_world_attached|].
  exact (proj2 (proj2 (proj2 (proj2 (proj2
           (stop_then_start_skips s1_path [] fresh_world (encode_lines [line_a]) 3
              fresh_world_attached)))))).
Defined.

(** X9 on [stop] called while the reads of two lines are out, the second
    completing first. *)
Example stop_with_reads_out :
  delivered 7 (log (run (map Resolve [1; 0])
                        (step CallStop (tick reading_and_behind))))
  = [JArray [JNumber (lit "1"); JNumber (lit "2")];
     JObject [(lit "timestamp", JString (lit "t1"))]].
Proof. vm_compute. reflexivity. Qed.

(** X10 on subscriber 7, with a read completing and another subscription
    after it has unsubscribed. *)
Lemma unsubscribed_callback_is_silent_witness :
  forallb (not_subscribing 7) [Tick; Resolve 0; CallSubscribe 9] = true
  /\ delivered 7 (log (run [Tick; Resolve 0; CallSubscribe 9]
                         (step (CallUnsubscribe 7) unpolled_world)))
     = delivered 7 (log unpolled_world).
Proof.
  assert (forallb (not_subscribing 7) [Tick; Resolve 0; CallSubscribe 9] = true)
    as Hothers by (vm_compute; reflexivity).
  exact (conj Hothers
           (proj1 (unsubscribed_callback_is_silent unpolled_world 7
                     [Tick; Resolve 0; CallSubscribe 9] Hothers))).
Defined.


(** The byte order mark of X11: the snapshot keeps it, and the line does
    not decode; the text of the slice has lost it, and the line does. *)
Example byte_order_mark_at_the_cut :
  parseLines (BOM ++ encode_lines [line_c]) = []
  /\ parseLines (Blob_text (BOM ++ encode_lines [line_c])) = [JObject []].
Proof. vm_compute. split; reflexivity. Qed.


(** X13 on the session id s1. *)
Lemma session_id_round_trip_witness :
  (forall i, i < length (lit "s1") ->
             startsWith (drop i (lit "s1" ++ lit ".txt")) (lit ".txt") = false)
  /\ is_log_file (lit "s1" ++ lit ".txt") = true.
Proof.
  assert (forall i, i < length (lit "s1") ->
                    startsWith (drop i (lit "s1" ++ lit ".txt")) (lit ".txt")
                    = false) as Honly.
  { intros i Hi. destruct i as [|[|i]]; [reflexivity|reflexivity|].
    simpl in Hi. lia. }
  exact (conj Honly
           (proj1 (session_id_round_trip mixed_log (lit "logs") (lit "s1")
                     {| session_id := []; file_path := [];
                        first_entry := Stamp []; last_entry := Stamp [];
                        entry_count := 0; size_bytes := 0 |}
                     Honly))).
Defined.

End Runs.

(** * The server on concrete requests *)

Section ServerRuns.
#[local] Existing Instance quiet_runtime.
#[local] Existing Instance quiet_server.

Example getMimeType_cases :
  getMimeType (lit "public/styles/main.css") = Str (lit "text/css")
  /\ getMimeType (lit "public/index.html") = Str (lit "text/html")
  /\ getMimeType (lit "a.css.bak") = Str (lit "application/octet-stream")
  /\ getMimeType (lit "MAIN.CSS") = Str (lit "application/octet-stream")
  /\ getMimeType (lit "v1.2/readme") = Str (lit "application/octet-stream")
  /\ getMimeType (lit "toString") = Inherited (lit "toString").
Proof. vm_compute. repeat split. Qed.

Example requests_on_the_site :
  answer (handleRequest (get "/" None) (serve site))
  = Some {| status := 200;
            headers := [(lit "Content-Type", Str (lit "text/html"))];
            body := FileBody (lit "public/index.html") |}
  /\ answer (handleRequest (get "/styles/none.css" None) (serve site))
     = Some not_found
  /\ answer (handleRequest (get "/api/entries" (Some (lit "s2"))) (serve site))
     = Some {| status := 200;
               headers := [ (lit "Content-Type", Str (lit "application/json"));
                            (lit "Access-Control-Allow-Origin", Str (lit "*")) ];
               body := Text (lit "[{}]") |}
  /\ answer (handleRequest (get "/api/entries" None) (serve site))
     = Some {| status := 200;
               headers := [ (lit "Content-Type", Str (lit "application/json"));
                            (lit "Access-Control-Allow-Origin", Str (lit "*")) ];
               body := Text (lit "[]") |}.
Proof.
  split; [vm_compute; reflexivity|]. split; [vm_compute; reflexivity|].
  split; vm_compute; reflexivity.
Qed.

(** X14 on the style sheet of the site. *)
Lemma getMimeType_by_extension_witness :
  ("."%char ∉ lit "css")
  /\ getMimeType (lit "public/styles/main" ++ "."%char :: lit "css")
     = Str (lit "text/css").
Proof.
  assert ("."%char ∉ lit "css") as Hext by by_evaluation.
  exact (conj Hext
           (proj1 (getMimeType_by_extension (lit "public/styles/main") (lit "css")
                     Hext))).
Defined.

(** X15 on a snapshot frame followed by an entry frame. *)
Lemma frames_split_into_lines_witness :
  Forall (fun m => (newline ∉ fst m) /\ (newline ∉ snd m))
         [(lit "entries", lit "[]"); (lit "entry", lit "{}")]
  /\ split newline (frames [(lit "entries", lit "[]"); (lit "entry", lit "{}")])
     = [lit "event: entries"; lit "data: []"; [];
        lit "event: entry"; lit "data: {}"; []; []].
Proof.
  assert (Forall (fun m : str * str => (newline ∉ fst m) /\ (newline ∉ snd m))
                 [(lit "entries", lit "[]"); (lit "entry", lit "{}")]) as Hframes
    by by_evaluation.
  exact (conj Hframes (frames_split_into_lines _ Hframes)).
Defined.

(** X16 on a request that moves the watcher to session s2. *)
Lemma handleRequest_leaves_the_logs_witness :
  handleRequest (get "/api/entries" (Some (lit "s2"))) (serve site)
  = Ok (entries_of_s2, on_s2)
  /\ files (world on_s2) = files (world (serve site))
  /\ log (world on_s2) = log (world (serve site)).
Proof.
  assert (handleRequest (get "/api/entries" (Some (lit "s2"))) (serve site)
          = Ok (entries_of_s2, on_s2)) as Hrequest by reflexivity.
  destruct (handleRequest_leaves_the_logs _ _ _ _ Hrequest)
    as (Hfiles & _ & Hlog & _).
  exact (conj Hrequest (conj Hfiles Hlog)).
Defined.

(** X17 on the style sheet of the site. *)
Lemma styles_route_serves_under_STYLES_DIR_witness :
  dot_segments_resolved (lit "/styles/" ++ lit "main.css")
  /\ answer (handleRequest (get "/styles/main.css" None) (serve site))
     = Some {| status := 200;
               headers := [(lit "Content-Type", Str (lit "text/css"))];
               body := FileBody (lit "public/styles/main.css") |}
  /\ (lit ".." ∉ split slash (lit "main.css")).
Proof.
  assert (dot_segments_resolved (lit "/styles/" ++ lit "main.css")) as Hresolved.
  { apply (bool_decide_unpack _). vm_compute. exact I. }
  destruct (styles_route_serves_under_STYLES_DIR (serve site) (lit "main.css")
              None Hresolved) as (Hrequest & Hunder & Hfound & _).
  split; [exact Hresolved|].
  split; [|exact Hunder].
  change (get "/styles/main.css" None)
    with {| method := lit "GET"; pathname := lit "/styles/" ++ lit "main.css";
            session_param := None |}.
  rewrite Hrequest, (Hfound (lit "body{}")) by (vm_compute; reflexivity).
  vm_compute. reflexivity.
Defined.

(** X18 on the site, session s2. *)
Lemma api_entries_switches_the_watcher_witness :
  truthy (lit "s2") = true
  /\ truthy (getSessionLogPath (lit "s2")) = true
  /\ exists response sv1,
       handleRequest (get "/api/entries" (Some (lit "s2"))) (serve site)
       = Ok (response, sv1)
       /\ body response = Text (lit "[{}]")
       /\ handleRequest (get "/api/entries" (Some (lit "s2"))) sv1
          = Ok (response, sv1)
       /\ getCurrentSessionId (watcher (world sv1)) = Some (lit "s2")
       /\ lastSize (watcher (world sv1)) = 3.
Proof.
  assert (truthy (lit "s2") = true) as Hid by reflexivity.
  assert (truthy (getSessionLogPath (lit "s2")) = true) as Hpath by reflexivity.
  split; [exact Hid|]. split; [exact Hpath|].
  destruct (api_entries_switches_the_watcher (serve site) (lit "s2") Hid Hpath)
    as (response & sv1 & Hfirst & _ & Hbody & Hagain & Hon & _ & Hsize & _).
  exists response, sv1. split; [exact Hfirst|].
  split; [rewrite Hbody; vm_compute; reflexivity|].
  split; [exact Hagain|]. split; [exact Hon|].
  destruct Hsize as [_ Hbytes]; [discriminate|].
  rewrite Hbytes by (vm_compute; reflexivity). vm_compute. reflexivity.
Defined.


(** The server of X20 after a client has connected, a line was written and
    read, and the client has gone. *)
Example one_stream :
  let sv := serving site [Requested (get "/events" (Some (lit "s1")));
                          Wrote s1_path (encode_lines [line_c]);
                          TimerFired; ReadCompleted 0; Cancelled 0] in
  closures sv = 1
  /\ subscribers (watcher (world sv)) = []
  /\ entry_frames 0 (log (world sv)) = [lit "event: entry" ++ newline
                                           :: lit "data: {}" ++ [newline; newline]].
Proof. vm_compute. repeat split. Qed.

End ServerRuns.
